(** * Bit-range operations of jml-base ([arch/bit_range_ops.h])

    A shallow embedding of the bit-field codec: the double-word shift
    ([shrd_emulated], [shrd]), single-field [extract_bit_range] /
    [set_bits] / [set_bit_range], the memory buffer strategies, the bit
    cursor, the extractor and the writer.

    Conventions.
    - A word of type [Data] (an unsigned integer of 8, 16, 32 or 64 bits)
      is a [Z] in [[0, 2^TBITS)].
    - C++ evaluates the operators of [uint8_t] and [uint16_t] operands in
      [int] (integral promotion) and those of [uint32_t] and [uint64_t]
      operands in the type itself; each operator below writes that out.
    - An operation whose behaviour C++ leaves undefined (a shift by a
      negative count or by at least the width of the promoted operand,
      signed overflow, a read or write outside the array) yields [None].
    - A pointer into the word array is the array together with an index.
    - [int] and [shift_t] have 32 bits, [size_t] has 64.
    - [shrd] is compiled in one of two ways, chosen by [JML_INTEL_ISA]
      (defined in [arch/arch.h]); the flag [intel_isa] selects the
      build. *)

From Stdlib Require Import ZArith Lia Bool List.
From coqutil Require Import Z.bitblast.
From stdpp Require Import base option list.

Local Open Scope Z_scope.

(** ** Undefined behaviour as an error monad *)

Definition UB (A : Type) : Type := option A.

Definition ub_bind {A B : Type} (m : UB A) (f : A -> UB B) : UB B :=
  match m with
  | Some a => f a
  | None => None
  end.

Notation "'do' x <- m ; f" := (ub_bind m (fun x => f))
  (at level 10, x name, m at level 100, f at level 200).

(** ** Word types *)

(** The four instantiations of [Data]. *)
Inductive width : Type := W8 | W16 | W32 | W64.

(** [sizeof(T) * 8] *)
Definition TBITS (w : width) : Z :=
  match w with W8 => 8 | W16 => 16 | W32 => 32 | W64 => 64 end.

(** Types narrower than [int] are promoted to [int]. *)
Definition promotes_to_int (w : width) : bool :=
  match w with W8 | W16 => true | W32 | W64 => false end.

(** Width of the type the operators of [Data] are evaluated in. *)
Definition PBITS (w : width) : Z :=
  if promotes_to_int w then 32 else TBITS w.

Definition INT_MAX : Z := 2 ^ 31 - 1.
Definition INT_MIN : Z := - 2 ^ 31.

(** Conversions between integer types (modular; to a signed type as every
    two's-complement implementation does it). *)
Definition to_Data (w : width) (x : Z) : Z := x mod 2 ^ TBITS w.
Definition to_shift_t (x : Z) : Z := x mod 2 ^ 32.
Definition to_size_t (x : Z) : Z := x mod 2 ^ 64.
Definition to_int (x : Z) : Z := (x + 2 ^ 31) mod 2 ^ 32 - 2 ^ 31.

(** The result [v] of [+], [-] or [*] in the promoted type of [Data]:
    [int] arithmetic must not overflow, unsigned arithmetic wraps. *)
Definition arith (w : width) (v : Z) : UB Z :=
  if promotes_to_int w
  then if (INT_MIN <=? v) && (v <=? INT_MAX) then Some v else None
  else Some (v mod 2 ^ TBITS w).

(** [x << n] for [x] of type [Data].  In [int], [x] must be non-negative
    and [x * 2^n] representable in [unsigned int]. *)
Definition shl (w : width) (x n : Z) : UB Z :=
  if (0 <=? n) && (n <? PBITS w)
  then if promotes_to_int w
       then if (0 <=? x) && (Z.shiftl x n <? 2 ^ 32)
            then Some (to_int (Z.shiftl x n)) else None
       else Some (Z.shiftl x n mod 2 ^ TBITS w)
  else None.

(** [x >> n] for [x] of type [Data] (never negative). *)
Definition shr (w : width) (x n : Z) : UB Z :=
  if (0 <=? n) && (n <? PBITS w) then Some (Z.shiftr x n) else None.

(** [~x] for [x] of type [Data]. *)
Definition cnot (w : width) (x : Z) : Z :=
  if promotes_to_int w then Z.lnot x else Z.lnot x mod 2 ^ TBITS w.

(** ** The double-word shift *)

(** [shrd_emulated<T>(low, high, bits)]:
    [low >>= bits; high <<= (TBITS - bits); return low | high;]
    [TBITS - bits] is computed in [unsigned int]. *)
Definition shrd_emulated (w : width) (low high bits : Z) : UB Z :=
  do l <- shr w low bits;
  let low := to_Data w l in
  do h <- shl w high (to_shift_t (TBITS w - bits));
  let high := to_Data w h in
  Some (to_Data w (Z.lor low high)).

(** The x86 instruction [shrd count, src, dest] on operands of [TBITS w]
    bits: the count is taken modulo 32 (modulo 64 for 64-bit operands); a
    zero count leaves [dest] as it is, a count above the operand size
    leaves it undefined, and otherwise [dest] receives the low word of
    [src:dest] shifted right by the count. *)
Definition shrd_insn (w : width) (dest src count : Z) : UB Z :=
  let count := count mod (match w with W64 => 64 | _ => 32 end) in
  if count =? 0 then Some dest
  else if TBITS w <? count then None
  else Some (Z.shiftr (Z.lor dest (Z.shiftl src (TBITS w))) count
               mod 2 ^ TBITS w).

(** [shrd] when [JML_INTEL_ISA] is defined: the template guards
    [bits > TBITS] and runs the instruction on [(uint8_t)bits]; the
    [unsigned char] overload calls the emulation, as there is no 8-bit
    instruction. *)
Definition shrd_intel (w : width) (low high bits : Z) : UB Z :=
  match w with
  | W8 => shrd_emulated W8 low high bits
  | _ => if TBITS w <? bits then Some 0
         else shrd_insn w low high (bits mod 2 ^ 8)
  end.

(** [shrd]; [intel_isa] stands for
    [defined(JML_INTEL_ISA) && !defined(JML_COMPILER_NVCC)]. *)
Definition shrd (intel_isa : bool) (w : width) (low high bits : Z) : UB Z :=
  if intel_isa then shrd_intel w low high bits
  else shrd_emulated w low high bits.

(** ** Word arrays *)

(** [p[0]] for the pointer at index [p] of the array [mem]. *)
Definition load (mem : list Z) (p : Z) : UB Z :=
  if p <? 0 then None else mem !! Z.to_nat p.

(** [p[0] = v] *)
Definition store (mem : list Z) (p : Z) (v : Z) : UB (list Z) :=
  if (0 <=? p) && (p <? Z.of_nat (length mem))
  then Some (<[Z.to_nat p := v]> mem) else None.

(** Every word of the array is a value of [Data]. *)
Definition words_ok (w : width) (mem : list Z) : Prop :=
  Forall (fun x => 0 <= x < 2 ^ TBITS w) mem.

(** ** extract_bit_range *)

(** [(Data(1) << bits) - 1] *)
Definition low_mask (w : width) (bits : Z) : UB Z :=
  do one <- shl w 1 bits;
  arith w (one - 1).

(** [Data(bits != 0)] *)
Definition nonzero (bits : Z) : Z := if bits =? 0 then 0 else 1.

(** [extract_bit_range(const Data * p, size_t bit, shift_t bits)] *)
Definition extract_bit_range_ptr (intel_isa : bool) (w : width)
    (mem : list Z) (p : Z) (bit bits : Z) : UB Z :=
  do p0 <- load mem p;
  do result <-
    (if TBITS w <? to_size_t (bit + bits)
     then do p1 <- load mem (p + 1);
          shrd intel_isa w p0 p1 (to_shift_t bit)
     else do r <- shr w p0 bit;
          Some (to_Data w r));
  do m <- arith w (result * nonzero bits);
  let result := to_Data w m in
  do mask <- low_mask w bits;
  Some (to_Data w (Z.land result mask)).

(** [extract_bit_range(Data p0, Data p1, size_t bit, shift_t bits)] *)
Definition extract_bit_range (intel_isa : bool) (w : width)
    (p0 p1 bit bits : Z) : UB Z :=
  if bits =? 0 then Some 0 else
  do s <- shrd intel_isa w p0 p1 (to_shift_t bit);
  do m <- arith w (s * nonzero bits);
  do mask <- low_mask w bits;
  Some (to_Data w (Z.land m mask)).

(** ** set_bits and set_bit_range *)

(** [set_bits<Data>(in, val, bit, bits)] *)
Definition set_bits (w : width) (inp val bit bits : Z) : UB Z :=
  do m <- low_mask w bits;
  let mask := to_Data w m in
  do m' <- shl w mask bit;
  let mask := to_Data w m' in
  do v' <- shl w val bit;
  let val := to_Data w v' in
  Some (to_Data w (Z.lor (Z.land inp (cnot w mask)) (Z.land val mask))).

(** [set_bit_range<Data>(p, val, bit, bits)]; [bits0] and [bits1] are
    [int]s computed from [unsigned int] operands. *)
Definition set_bit_range (w : width) (mem : list Z) (p : Z)
    (val bit bits : Z) : UB (list Z) :=
  if bits =? 0 then Some mem else
  let bits0 := Z.min (to_int bits) (to_int (to_shift_t (TBITS w - bit))) in
  let bits1 := to_int (to_shift_t (bits - bits0)) in
  do p0 <- load mem p;
  do r0 <- set_bits w p0 val bit (to_shift_t bits0);
  do mem1 <- store mem p r0;
  if bits1 =? 0 then Some mem1 else
  do p1 <- load mem1 (p + 1);
  do v <- shr w val bits0;
  do r1 <- set_bits w p1 (to_Data w v) 0 (to_shift_t bits1);
  store mem1 (p + 1) r1.

(** ** Sign extension *)

(** Conversion to a signed integer of [n] bits. *)
Definition to_signed (n : Z) (x : Z) : Z :=
  (x + 2 ^ (n - 1)) mod 2 ^ n - 2 ^ (n - 1).

(** [sign_extend<T>(raw, sign_bit)] for a signed [T] of [TBITS tw] bits:
    [int sign = (raw & (1 << sign_bit)) != 0;]
    [T new_bits = T(-sign) << sign_bit;  return raw | new_bits;]
    [1 << sign_bit] is an [int] shift; the shift of [T(-sign)] happens in
    the promoted [T] and, for [-1], gives [-2^sign_bit] as two's-complement
    implementations define it. *)
Definition sign_extend (tw : width) (raw sign_bit : Z) : UB Z :=
  if (0 <=? sign_bit) && (sign_bit <? 32) then
    let one := to_int (Z.shiftl 1 sign_bit) in
    let sign := if Z.land raw one =? 0 then 0 else 1 in
    if sign_bit <? PBITS tw then
      let new_bits :=
        to_signed (TBITS tw)
          (to_signed (PBITS tw) (Z.shiftl (- sign) sign_bit)) in
      Some (to_signed (TBITS tw) (Z.lor raw new_bits))
    else None
  else None.

(** The type of a destination: [uintN_t] or [intN_t]. *)
Inductive dest_type : Type :=
| Unsigned (tw : width)
| Signed (tw : width).

(** Conversion of a value to the destination type. *)
Definition convert (T : dest_type) (x : Z) : Z :=
  match T with
  | Unsigned tw => x mod 2 ^ TBITS tw
  | Signed tw => to_signed (TBITS tw) x
  end.

(** [fixup_extract]: the template returns [extracted]; the overloads for
    [signed char], [signed short], [signed int], [signed long] and
    [signed long long] call [sign_extend(e, bits)]. *)
Definition fixup_extract (T : dest_type) (extracted bits : Z) : UB Z :=
  match T with
  | Unsigned _ => Some extracted
  | Signed tw => sign_extend tw extracted (to_int bits)
  end.

(** ** Memory buffers *)

(** What [Bit_Buffer] asks of its [MemBuf] parameter: construction from a
    pointer, [curr()], [next()] and [operator +=].  The word array is
    passed to each of them. *)
Class MemBuf (B : Type) : Type := {
  mb_make : list Z -> Z -> UB B;
  mb_curr : list Z -> B -> UB Z;
  mb_next : list Z -> B -> UB Z;
  mb_plus_assign : list Z -> B -> Z -> UB B;
}.

Module Simple_Mem_Buffer.

Record t : Type := Build { data : Z }.

Definition make (p : Z) : t := Build p.

(** [data[0]] *)
Definition curr (mem : list Z) (b : t) : UB Z := load mem (data b).

(** [data[1]] *)
Definition next (mem : list Z) (b : t) : UB Z := load mem (data b + 1).

(** [operator += (int offset) { data += offset; }] *)
Definition plus_assign (b : t) (offset : Z) : t := Build (data b + offset).

End Simple_Mem_Buffer.

#[export] Instance Simple_MemBuf : MemBuf Simple_Mem_Buffer.t := {
  mb_make := fun _ p => Some (Simple_Mem_Buffer.make p);
  mb_curr := Simple_Mem_Buffer.curr;
  mb_next := Simple_Mem_Buffer.next;
  mb_plus_assign := fun _ b k => Some (Simple_Mem_Buffer.plus_assign b k);
}.

Module Buffered_Mem_Buffer.

Record t : Type := Build { data : Z; b0 : Z; b1 : Z }.

(** The constructor reads [data[0]] and [data[1]]. *)
Definition make (mem : list Z) (p : Z) : UB t :=
  do x0 <- load mem p;
  do x1 <- load mem (p + 1);
  Some (Build p x0 x1).

Definition curr (b : t) : Z := b0 b.
Definition next (b : t) : Z := b1 b.

(** [operator += (int offset)]:
    [data += offset;]
    [b0 = (offset == 0 ? b0 : (offset == 1 ? b1 : data[0]));]
    [b1 = (offset == 0 ? b1 : data[1]);] *)
Definition plus_assign (mem : list Z) (b : t) (offset : Z) : UB t :=
  let data' := data b + offset in
  do b0' <- (if offset =? 0 then Some (b0 b)
             else if offset =? 1 then Some (b1 b)
             else load mem data');
  do b1' <- (if offset =? 0 then Some (b1 b) else load mem (data' + 1));
  Some (Build data' b0' b1').

(** [operator ++ (int)]: [b0 = b1; b1 = data[1];] *)
Definition post_increment (mem : list Z) (b : t) : UB t :=
  let b0' := b1 b in
  do b1' <- load mem (data b + 1);
  Some (Build (data b) b0' b1').

(** The states a caller can reach: construction, then [+=]. *)
Inductive reachable (mem : list Z) : t -> Prop :=
| reach_make p b : make mem p = Some b -> reachable mem b
| reach_plus_assign b offset b' :
    reachable mem b -> plus_assign mem b offset = Some b' ->
    reachable mem b'.

End Buffered_Mem_Buffer.

#[export] Instance Buffered_MemBuf : MemBuf Buffered_Mem_Buffer.t := {
  mb_make := Buffered_Mem_Buffer.make;
  mb_curr := fun _ b => Some (Buffered_Mem_Buffer.curr b);
  mb_next := fun _ b => Some (Buffered_Mem_Buffer.next b);
  mb_plus_assign := Buffered_Mem_Buffer.plus_assign;
}.

(** [advance(k)] then [curr()] and [next()], for each [k] in turn. *)
Fixpoint mb_observe {B : Type} `{MemBuf B} (mem : list Z) (b : B)
    (ks : list Z) : UB (list (Z * Z)) :=
  match ks with
  | [] => Some []
  | k :: ks' =>
      do b' <- mb_plus_assign mem b k;
      do c <- mb_curr mem b';
      do n <- mb_next mem b';
      do rest <- mb_observe mem b' ks';
      Some ((c, n) :: rest)
  end.

(** ** The bit cursor *)

(** [a + b] in [int]. *)
Definition int_add (a b : Z) : UB Z :=
  if (INT_MIN <=? a + b) && (a + b <=? INT_MAX) then Some (a + b) else None.

Module Bit_Buffer.
Section Bit_Buffer.

Context (intel_isa : bool) (w : width) {B : Type} `{MemBuf B}.
Context (mem : list Z).

Record t : Type := Build { data : B; bit_ofs : Z }.

(** [Bit_Buffer(const Data * data) : data(data), bit_ofs(0)] *)
Definition make (p : Z) : UB t :=
  do d <- mb_make mem p;
  Some (Build d 0).

(** [advance(int bits)]:
    [bit_ofs += bits;  data += (bit_ofs / (sizeof(Data) * 8));]
    [bit_ofs %= sizeof(Data) * 8;]
    The division and the remainder are computed in [size_t]; the
    quotient is converted to the [int] that [operator +=] takes. *)
Definition advance (b : t) (bits : Z) : UB t :=
  do ofs <- int_add (bit_ofs b) bits;
  do d <- mb_plus_assign mem (data b) (to_int (to_size_t ofs / TBITS w));
  Some (Build d (to_int (to_size_t ofs mod TBITS w))).

(** [extract(int bits)]:
    [result = extract_bit_range(data.curr(), data.next(), bit_ofs, bits);]
    [advance(bits);  return result;] *)
Definition extract (b : t) (bits : Z) : UB (Z * t) :=
  do c <- mb_curr mem (data b);
  do n <- mb_next mem (data b);
  do result <- extract_bit_range intel_isa w c n
                 (to_size_t (bit_ofs b)) (to_shift_t bits);
  do b' <- advance b bits;
  Some (result, b').

(** [extract] once for each width. *)
Fixpoint extract_all (b : t) (widths : list Z) : UB (list Z) :=
  match widths with
  | [] => Some []
  | bits :: rest =>
      do rb <- extract b bits;
      do vs <- extract_all (snd rb) rest;
      Some (fst rb :: vs)
  end.

(** [advance] once for each count; the cursor after each call. *)
Fixpoint advance_all (b : t) (counts : list Z) : UB (list t) :=
  match counts with
  | [] => Some []
  | bits :: rest =>
      do b' <- advance b bits;
      do bs <- advance_all b' rest;
      Some (b' :: bs)
  end.

End Bit_Buffer.
End Bit_Buffer.

Arguments Bit_Buffer.Build {B} _ _.
Arguments Bit_Buffer.data {B} _.
Arguments Bit_Buffer.bit_ofs {B} _.

(** ** The extractor *)

Module Bit_Extractor.
Section Bit_Extractor.

Context (intel_isa : bool) (w : width) {B : Type} `{MemBuf B}.
Context (mem : list Z).

(** [buf] and a [bit_ofs] that no method uses. *)
Record t : Type := Build { buf : Bit_Buffer.t (B := B); bit_ofs : Z }.

Definition make (p : Z) : UB t :=
  do b <- Bit_Buffer.make mem p;
  Some (Build b 0).

(** [extract<T>(T & where, int num_bits)]:
    [where = buf.extract(num_bits);] *)
Definition extract (T : dest_type) (e : t) (num_bits : Z) : UB (Z * t) :=
  do rb <- Bit_Buffer.extract intel_isa w mem (buf e) num_bits;
  Some (convert T (fst rb), Build (snd rb) (bit_ofs e)).

Definition advance (e : t) (bits : Z) : UB t :=
  do b <- Bit_Buffer.advance w mem (buf e) bits;
  Some (Build b (bit_ofs e)).




End Bit_Extractor.
End Bit_Extractor.

(** ** The writer *)

Module Bit_Writer.
Section Bit_Writer.

Context (w : width).

Record t : Type := Build { data : Z; bit_ofs : Z }.

Definition make (p : Z) : t := Build p 0.



End Bit_Writer.
End Bit_Writer.

(** Bit [g] of the array read as one stream of bits, the least
    significant bit of each word first; [false] outside the array. *)
Definition stream_bit (w : width) (mem : list Z) (g : Z) : bool :=
  match load mem (g / TBITS w) with
  | Some x => Z.testbit x (g mod TBITS w)
  | None => false
  end.

(** The cursor over the direct strategy at word [q], bit [o]. *)
Definition cursor_at (q o : Z) : Bit_Buffer.t (B := Simple_Mem_Buffer.t) :=
  Bit_Buffer.Build (Simple_Mem_Buffer.make q) o.

(** The index of the word a cursor points to. *)
Definition word_index (b : Bit_Buffer.t (B := Simple_Mem_Buffer.t)) : Z :=
  Simple_Mem_Buffer.data (Bit_Buffer.data b).

(** No advance of the sequence overflows [bit_ofs += bits], from the bit
    offset [ofs]. *)
Fixpoint advances_fit (w : width) (ofs : Z) (counts : list Z) : Prop :=
  match counts with
  | [] => True
  | bits :: rest =>
      0 <= bits /\ ofs + bits <= INT_MAX /\
      advances_fit w ((ofs + bits) mod TBITS w) rest
  end.



(** Sum of a list of counts. *)
Definition sumZ (l : list Z) : Z := foldr Z.add 0 l.

(** [n] direct [extract_bit_range] calls on the array at [p], the [k]-th
    at the bit offset accumulated from the widths before it: [ofs] bits
    have been consumed so far. *)
Fixpoint extract_direct (intel_isa : bool) (w : width) (mem : list Z)
    (p ofs : Z) (widths : list Z) : UB (list Z) :=
  match widths with
  | [] => Some []
  | bits :: rest =>
      do v <- extract_bit_range_ptr intel_isa w mem
                (p + ofs / TBITS w) (ofs mod TBITS w) bits;
      do vs <- extract_direct intel_isa w mem p (ofs + bits) rest;
      Some (v :: vs)
  end.

(** ** The field of a two-word window, as the specification words it *)

(** The 2W-bit value [(word1:word0)]. *)
Definition window (w : width) (word0 word1 : Z) : Z :=
  word0 + word1 * 2 ^ TBITS w.

(** The [bits]-wide unsigned field starting at [bit], right-justified. *)
Definition field (w : width) (word0 word1 bit bits : Z) : Z :=
  (window w word0 word1 / 2 ^ bit) mod 2 ^ bits.

(** The W-bit window beginning [bits] positions into [(high:low)]. *)
Definition shift_window (w : width) (low high bits : Z) : Z :=
  (window w low high / 2 ^ bits) mod 2 ^ TBITS w.

(** * Properties *)

Example shrd_emulated_u16 :
  shrd_emulated W16 0xABCD 0x1234 13 = Some 0x91A5.
Proof. reflexivity. Qed.

Example extract_straddle_u16 :
  extract_bit_range_ptr false W16 [0xABCD; 0x1234; 0] 0 13 6 = Some 0x25.
Proof. reflexivity. Qed.

(** ** Arithmetic of the word types *)

Lemma ub_bind_Some {A B : Type} (a : A) (f : A -> UB B) :
  ub_bind (Some a) f = f a.
Proof. reflexivity. Qed.

(** One step of a defined computation. *)
Ltac ub_step := rewrite ub_bind_Some; cbv beta zeta.

(** Evaluate the powers of two with a literal exponent. *)
Ltac pow_consts :=
  repeat match goal with
         | |- context [2 ^ Zpos ?k] =>
             let c := eval vm_compute in (2 ^ Zpos k) in
             change (2 ^ Zpos k) with c
         | H : context [2 ^ Zpos ?k] |- _ =>
             let c := eval vm_compute in (2 ^ Zpos k) in
             change (2 ^ Zpos k) with c in H
         end.

Lemma TBITS_range w : 8 <= TBITS w <= 64.
Proof. destruct w; cbn; lia. Qed.

Lemma TBITS_PBITS w : TBITS w <= PBITS w <= 64.
Proof. destruct w; cbn; lia. Qed.

Lemma PBITS_small w : promotes_to_int w = true -> TBITS w <= 16 /\ PBITS w = 32.
Proof. destruct w; cbn; intros; try discriminate; lia. Qed.

Lemma PBITS_large w : promotes_to_int w = false -> PBITS w = TBITS w /\ 32 <= TBITS w.
Proof. destruct w; cbn; intros; try discriminate; lia. Qed.

Lemma to_Data_small w x : 0 <= x < 2 ^ TBITS w -> to_Data w x = x.
Proof. intros. unfold to_Data. apply Z.mod_small. assumption. Qed.

Lemma to_Data_range w x : 0 <= to_Data w x < 2 ^ TBITS w.
Proof.
  unfold to_Data. apply Z.mod_pos_bound.
  apply Z.pow_pos_nonneg; [lia | pose proof (TBITS_range w); lia].
Qed.

Lemma to_Data_to_int w x :
  promotes_to_int w = true -> to_Data w (to_int x) = to_Data w x.
Proof.
  intros Hw. unfold to_Data, to_int.
  replace ((x + 2 ^ 31) mod 2 ^ 32 - 2 ^ 31)
    with (x + (- 2 ^ (32 - TBITS w) * ((x + 2 ^ 31) / 2 ^ 32)) * 2 ^ TBITS w).
  - apply Z.mod_add. destruct w; cbn; lia.
  - pose proof (Z.div_mod (x + 2 ^ 31) (2 ^ 32)).
    destruct w; try discriminate; unfold TBITS; cbn [Z.sub Z.opp Z.pos_sub Pos.pred_double Z.add];
      pow_consts; lia.
Qed.

Lemma testbit_word_high w x i :
  0 <= x < 2 ^ TBITS w -> TBITS w <= i -> Z.testbit x i = false.
Proof.
  intros Hx Hi. pose proof (TBITS_range w).
  rewrite <- (Z.mod_small x (2 ^ TBITS w)) by assumption.
  apply Z.mod_pow2_bits_high. lia.
Qed.

Lemma window_lor w word0 word1 :
  0 <= word0 < 2 ^ TBITS w ->
  window w word0 word1 = Z.lor word0 (Z.shiftl word1 (TBITS w)).
Proof.
  intros H0. pose proof (TBITS_range w). unfold window.
  rewrite <- Z.shiftl_mul_pow2 by lia.
  symmetry. apply Z.or_to_plus.
  apply Z.bits_inj'; intros i Hi.
  rewrite Z.land_spec, Z.testbit_0_l.
  destruct (Z.lt_ge_cases i (TBITS w)).
  - rewrite Z.shiftl_spec_low by lia. apply andb_false_r.
  - rewrite (testbit_word_high w) by (assumption || lia). reflexivity.
Qed.

Lemma to_int_small v : - 2 ^ 31 <= v < 2 ^ 31 -> to_int v = v.
Proof.
  intros H. unfold to_int. rewrite Z.mod_small; lia.
Qed.

Lemma to_shift_t_small v : 0 <= v < 2 ^ 32 -> to_shift_t v = v.
Proof. intros. unfold to_shift_t. apply Z.mod_small. assumption. Qed.

Lemma to_size_t_small v : 0 <= v < 2 ^ 64 -> to_size_t v = v.
Proof. intros. unfold to_size_t. apply Z.mod_small. assumption. Qed.

Lemma pow2_le_mono a b : 0 <= a <= b -> 2 ^ a <= 2 ^ b.
Proof. intros. apply Z.pow_le_mono_r; lia. Qed.

Lemma pow2_lt_mono a b : 0 <= a < b -> 2 ^ a < 2 ^ b.
Proof. intros. apply Z.pow_lt_mono_r; lia. Qed.

Lemma pow2_pos a : 0 <= a -> 0 < 2 ^ a.
Proof. intros. apply Z.pow_pos_nonneg; lia. Qed.

Lemma shr_ok w x n : 0 <= n < PBITS w -> shr w x n = Some (Z.shiftr x n).
Proof.
  intros H. unfold shr.
  replace (0 <=? n) with true by (symmetry; apply Z.leb_le; lia).
  replace (n <? PBITS w) with true by (symmetry; apply Z.ltb_lt; lia).
  reflexivity.
Qed.

Lemma shr_undefined w x n : PBITS w <= n -> shr w x n = None.
Proof.
  intros H. unfold shr.
  replace (n <? PBITS w) with false by (symmetry; apply Z.ltb_ge; lia).
  rewrite andb_false_r. reflexivity.
Qed.

Lemma shl_undefined w x n : PBITS w <= n -> shl w x n = None.
Proof.
  intros H. unfold shl.
  replace (n <? PBITS w) with false by (symmetry; apply Z.ltb_ge; lia).
  rewrite andb_false_r. reflexivity.
Qed.

Lemma shiftl_bound x n k :
  0 <= x < 2 ^ k -> 0 <= n -> 0 <= k -> 0 <= Z.shiftl x n < 2 ^ (k + n).
Proof.
  intros Hx Hn Hk. rewrite Z.shiftl_mul_pow2 by lia.
  rewrite Z.pow_add_r by lia. pose proof (pow2_pos n Hn). nia.
Qed.

(** A left shift of a word, stored back into a word: the count must be
    below the promoted width; a promoted shift of a word by at most 16
    cannot overflow. *)
Lemma shl_ok w x n :
  0 <= x < 2 ^ TBITS w -> 0 <= n < PBITS w ->
  (promotes_to_int w = true -> n <= 16) ->
  exists v, shl w x n = Some v /\
            to_Data w v = Z.shiftl x n mod 2 ^ TBITS w.
Proof.
  intros Hx Hn Hp. unfold shl.
  replace (0 <=? n) with true by (symmetry; apply Z.leb_le; lia).
  replace (n <? PBITS w) with true by (symmetry; apply Z.ltb_lt; lia).
  cbn [andb].
  destruct (promotes_to_int w) eqn:Hw.
  - destruct (PBITS_small w Hw) as [Hs _].
    assert (Hb : 0 <= Z.shiftl x n < 2 ^ 32).
    { pose proof (shiftl_bound x n (TBITS w) Hx) as Hb.
      pose proof (TBITS_range w).
      assert (2 ^ (TBITS w + n) <= 2 ^ 32) by (apply pow2_le_mono; lia).
      lia. }
    replace (0 <=? x) with true by (symmetry; apply Z.leb_le; lia).
    replace (Z.shiftl x n <? 2 ^ 32) with true
      by (symmetry; apply Z.ltb_lt; lia).
    cbn [andb]. eexists. split; [reflexivity|].
    apply to_Data_to_int. assumption.
  - eexists. split; [reflexivity|].
    unfold to_Data. apply Z.mod_mod.
    pose proof (TBITS_range w). pose proof (pow2_pos (TBITS w)). lia.
Qed.

Lemma arith_ok_int w v :
  promotes_to_int w = true -> INT_MIN <= v <= INT_MAX -> arith w v = Some v.
Proof.
  intros Hw Hv. unfold arith. rewrite Hw.
  replace (INT_MIN <=? v) with true by (symmetry; apply Z.leb_le; lia).
  replace (v <=? INT_MAX) with true by (symmetry; apply Z.leb_le; lia).
  reflexivity.
Qed.

Lemma arith_ok w v :
  0 <= v < 2 ^ TBITS w -> arith w v = Some v.
Proof.
  intros Hv. destruct (promotes_to_int w) eqn:Hw.
  - apply arith_ok_int; [assumption|].
    destruct (PBITS_small w Hw) as [Hs _]. pose proof (TBITS_range w).
    assert (2 ^ TBITS w <= 2 ^ 16) by (apply pow2_le_mono; lia).
    unfold INT_MIN, INT_MAX. pow_consts. lia.
  - unfold arith. rewrite Hw. rewrite Z.mod_small by assumption. reflexivity.
Qed.

(** The mask of a field narrower than the word. *)
Lemma low_mask_ok w bits :
  0 <= bits < TBITS w -> low_mask w bits = Some (Z.ones bits).
Proof.
  intros Hb. pose proof (TBITS_range w) as HW.
  pose proof (TBITS_PBITS w) as HP.
  assert (H1 : 0 <= 1 < 2 ^ TBITS w).
  { pose proof (pow2_lt_mono 0 (TBITS w)). change (2 ^ 0) with 1 in *. lia. }
  assert (Hlt : 2 ^ bits < 2 ^ TBITS w) by (apply pow2_lt_mono; lia).
  pose proof (pow2_pos bits) as Hpos.
  unfold low_mask, shl.
  replace (0 <=? bits) with true by (symmetry; apply Z.leb_le; lia).
  replace (bits <? PBITS w) with true by (symmetry; apply Z.ltb_lt; lia).
  cbn [andb]. rewrite Z.shiftl_mul_pow2, Z.mul_1_l by lia.
  rewrite Z.ones_equiv, <- Z.sub_1_r.
  destruct (promotes_to_int w) eqn:Hw.
  - destruct (PBITS_small w Hw) as [Hs _].
    assert (2 ^ TBITS w <= 2 ^ 16) by (apply pow2_le_mono; lia).
    replace (2 ^ bits <? 2 ^ 32) with true
      by (symmetry; apply Z.ltb_lt; pow_consts; lia).
    cbn [Z.leb andb ub_bind]. rewrite to_int_small by (pow_consts; lia).
    apply arith_ok_int; [assumption|].
    unfold INT_MIN, INT_MAX. pow_consts. lia.
  - cbn [ub_bind]. rewrite (Z.mod_small (2 ^ bits)) by lia.
    apply arith_ok. lia.
Qed.

(** In a promoted type the mask of a whole word is still defined ... *)
Lemma low_mask_promoted_full w :
  promotes_to_int w = true -> low_mask w (TBITS w) = Some (Z.ones (TBITS w)).
Proof. destruct w; intros; try discriminate; reflexivity. Qed.

(** ... but for [uint32_t] and [uint64_t] it shifts by the width of the
    type. *)
Lemma low_mask_full_undefined w :
  promotes_to_int w = false -> low_mask w (TBITS w) = None.
Proof. destruct w; intros; try discriminate; reflexivity. Qed.

(** ** The double-word shift *)

Lemma shift_window_lor w low high bits :
  0 <= low < 2 ^ TBITS w -> 0 <= bits ->
  shift_window w low high bits =
  Z.shiftr (Z.lor low (Z.shiftl high (TBITS w))) bits mod 2 ^ TBITS w.
Proof.
  intros Hl Hb. unfold shift_window.
  rewrite (window_lor w) by assumption.
  rewrite Z.shiftr_div_pow2 by assumption. reflexivity.
Qed.

Lemma shift_window_0 w low high :
  0 <= low < 2 ^ TBITS w -> shift_window w low high 0 = low.
Proof.
  intros Hl. unfold shift_window, window.
  change (2 ^ 0) with 1. rewrite Z.div_1_r.
  rewrite Z.mod_add by lia. apply Z.mod_small. assumption.
Qed.

(** The emulation computes the window for every count in [[1, TBITS)],
    and for a zero count when the word is promoted to [int]. *)
Lemma shrd_emulated_ok w low high bits :
  0 <= low < 2 ^ TBITS w -> 0 <= high < 2 ^ TBITS w ->
  0 <= bits < TBITS w ->
  (promotes_to_int w = false -> 0 < bits) ->
  shrd_emulated w low high bits = Some (shift_window w low high bits).
Proof.
  intros Hl Hh Hb Hp. pose proof (TBITS_range w) as HW.
  pose proof (TBITS_PBITS w) as HP.
  unfold shrd_emulated. rewrite shr_ok by lia. cbn [ub_bind].
  rewrite to_shift_t_small by (pow_consts; lia).
  destruct (shl_ok w high (TBITS w - bits)) as (h & Hh1 & Hh2);
    [assumption | | | ].
  - destruct (promotes_to_int w) eqn:Hw.
    + destruct (PBITS_small w Hw). lia.
    + destruct (PBITS_large w Hw). specialize (Hp eq_refl). lia.
  - intros Hw. destruct (PBITS_small w Hw). lia.
  - rewrite Hh1. cbn [ub_bind]. rewrite Hh2.
    rewrite shift_window_lor by lia.
    unfold to_Data. f_equal. Z.bitblast.
Qed.

(** For [uint32_t] and [uint64_t] a zero count makes the emulation shift
    [high] by the whole width of its type. *)
Lemma shrd_emulated_0_undefined w low high :
  promotes_to_int w = false -> shrd_emulated w low high 0 = None.
Proof.
  intros Hw. destruct (PBITS_large w Hw) as [HP HW].
  pose proof (TBITS_range w).
  unfold shrd_emulated.
  destruct (shr w low 0); [cbn [ub_bind] | reflexivity].
  rewrite Z.sub_0_r, to_shift_t_small by (pow_consts; lia).
  rewrite shl_undefined by lia. reflexivity.
Qed.

(** The instruction computes the window for every count in [[0, TBITS)]. *)
Lemma shrd_insn_ok w low high bits :
  w <> W8 -> 0 <= low < 2 ^ TBITS w -> 0 <= bits < TBITS w ->
  shrd_insn w low high (bits mod 2 ^ 8) = Some (shift_window w low high bits).
Proof.
  intros Hw Hl Hb. pose proof (TBITS_range w) as HW.
  unfold shrd_insn. rewrite (Z.mod_small bits) by (pow_consts; lia).
  assert (Hc : bits mod (match w with W64 => 64 | _ => 32 end) = bits).
  { apply Z.mod_small. destruct w; cbn in *; lia. }
  rewrite Hc. destruct (Z.eqb_spec bits 0) as [-> | Hne].
  - rewrite shift_window_0 by assumption. reflexivity.
  - replace (TBITS w <? bits) with false by (symmetry; apply Z.ltb_ge; lia).
    rewrite shift_window_lor by lia. reflexivity.
Qed.

Lemma shrd_intel_ok w low high bits :
  0 <= low < 2 ^ TBITS w -> 0 <= high < 2 ^ TBITS w ->
  0 <= bits < TBITS w ->
  shrd_intel w low high bits = Some (shift_window w low high bits).
Proof.
  intros Hl Hh Hb.
  assert (Hi : w <> W8 ->
               (if TBITS w <? bits then Some 0
                else shrd_insn w low high (bits mod 2 ^ 8))
               = Some (shift_window w low high bits)).
  { intros Hw.
    replace (TBITS w <? bits) with false by (symmetry; apply Z.ltb_ge; lia).
    apply shrd_insn_ok; assumption. }
  destruct w; try (apply Hi; discriminate).
  apply shrd_emulated_ok; try assumption. discriminate.
Qed.

(** Whatever the build, [shrd] computes the window for a count in
    [[1, TBITS)]; a zero count needs the instruction or a promoted word. *)
Lemma shrd_ok intel_isa w low high bits :
  0 <= low < 2 ^ TBITS w -> 0 <= high < 2 ^ TBITS w ->
  0 <= bits < TBITS w ->
  (intel_isa = false -> promotes_to_int w = false -> 0 < bits) ->
  shrd intel_isa w low high bits = Some (shift_window w low high bits).
Proof.
  intros Hl Hh Hb Hz. unfold shrd. destruct intel_isa.
  - apply shrd_intel_ok; assumption.
  - apply shrd_emulated_ok; auto.
Qed.

Lemma shift_window_range w low high bits :
  0 <= shift_window w low high bits < 2 ^ TBITS w.
Proof.
  unfold shift_window. apply Z.mod_pos_bound.
  pose proof (TBITS_range w). apply pow2_pos. lia.
Qed.

(** ** extract_bit_range *)

Lemma field_range w word0 word1 bit bits :
  0 <= bits -> 0 <= field w word0 word1 bit bits < 2 ^ bits.
Proof.
  intros Hb. unfold field. apply Z.mod_pos_bound. apply pow2_pos. assumption.
Qed.

Lemma mod_pow2_mod_pow2 x a b :
  0 <= b <= a -> (x mod 2 ^ a) mod 2 ^ b = x mod 2 ^ b.
Proof.
  intros H. rewrite <- !Z.land_ones by lia. Z.bitblast.
Qed.

(** A field that does not straddle lies in [word0]. *)
Lemma field_single w word0 word1 bit bits :
  0 <= word0 < 2 ^ TBITS w -> 0 <= bit -> 0 <= bits ->
  bit + bits <= TBITS w ->
  field w word0 word1 bit bits = Z.land (Z.shiftr word0 bit) (Z.ones bits).
Proof.
  intros H0 Hbit Hbits Hfit. unfold field.
  rewrite (window_lor w) by assumption.
  rewrite <- Z.shiftr_div_pow2, <- Z.land_ones by lia.
  apply Z.bits_inj'; intros i Hi.
  rewrite !Z.land_spec, !Z.shiftr_spec, Z.lor_spec by lia.
  destruct (Z.lt_ge_cases i bits).
  - rewrite Z.shiftl_spec_low by lia. rewrite orb_false_r. reflexivity.
  - rewrite Z.ones_spec_high by lia. rewrite !andb_false_r. reflexivity.
Qed.

(** Any field narrower than a word is the low part of the shifted window. *)
Lemma field_shift_window w word0 word1 bit bits :
  0 <= bits <= TBITS w ->
  field w word0 word1 bit bits =
  Z.land (shift_window w word0 word1 bit) (Z.ones bits).
Proof.
  intros Hb. unfold field, shift_window.
  rewrite Z.land_ones by lia. symmetry. apply mod_pow2_mod_pow2. lia.
Qed.

(** The last two statements of both variants: multiply by [bits != 0],
    then mask. *)
Lemma mask_result w r bits :
  0 <= r < 2 ^ TBITS w -> 0 <= bits < TBITS w ->
  (do m <- arith w (r * nonzero bits);
   do mask <- low_mask w bits;
   Some (to_Data w (Z.land m mask)))
  = Some (Z.land r (Z.ones bits))
  /\
  (do m <- arith w (r * nonzero bits);
   do mask <- low_mask w bits;
   Some (to_Data w (Z.land (to_Data w m) mask)))
  = Some (Z.land r (Z.ones bits)).
Proof.
  intros Hr Hb. pose proof (TBITS_range w) as HW.
  assert (Hm : 0 <= r * nonzero bits < 2 ^ TBITS w).
  { unfold nonzero. destruct (bits =? 0); lia. }
  rewrite (arith_ok w _ Hm). cbn [ub_bind].
  rewrite low_mask_ok by assumption. cbn [ub_bind].
  rewrite (to_Data_small w (r * nonzero bits)) by assumption.
  assert (Hz : Z.land (r * nonzero bits) (Z.ones bits)
               = Z.land r (Z.ones bits)).
  { unfold nonzero. destruct (Z.eqb_spec bits 0) as [-> | Hne].
    - cbn. rewrite !Z.land_0_r. reflexivity.
    - rewrite Z.mul_1_r. reflexivity. }
  rewrite Hz.
  assert (Hs : to_Data w (Z.land r (Z.ones bits)) = Z.land r (Z.ones bits)).
  { apply to_Data_small. rewrite Z.land_ones by lia.
    pose proof (Z.mod_pos_bound r (2 ^ bits) (pow2_pos bits (proj1 Hb))).
    assert (2 ^ bits < 2 ^ TBITS w) by (apply pow2_lt_mono; lia). lia. }
  rewrite Hs. split; reflexivity.
Qed.

(** The pointer variant returns the field for every offset and every
    width below the word size, in every build, given the padding word. *)
Lemma extract_bit_range_ptr_ok intel_isa w mem p word0 word1 bit bits :
  load mem p = Some word0 -> load mem (p + 1) = Some word1 ->
  0 <= word0 < 2 ^ TBITS w -> 0 <= word1 < 2 ^ TBITS w ->
  0 <= bit < TBITS w -> 0 <= bits < TBITS w ->
  extract_bit_range_ptr intel_isa w mem p bit bits
  = Some (field w word0 word1 bit bits).
Proof.
  intros L0 L1 H0 H1 Hbit Hbits. pose proof (TBITS_range w) as HW.
  pose proof (TBITS_PBITS w) as HP.
  unfold extract_bit_range_ptr. rewrite L0. ub_step.
  rewrite to_size_t_small by (pow_consts; lia).
  destruct (Z.ltb_spec (TBITS w) (bit + bits)) as [Hst | Hfit].
  - rewrite L1. ub_step.
    rewrite to_shift_t_small by (pow_consts; lia).
    rewrite shrd_ok by (try assumption; intros; lia). ub_step.
    destruct (mask_result w (shift_window w word0 word1 bit) bits
                (shift_window_range _ _ _ _) Hbits) as [_ ->].
    rewrite field_shift_window by lia. reflexivity.
  - rewrite shr_ok by lia. do 2 ub_step.
    assert (Hr : 0 <= Z.shiftr word0 bit < 2 ^ TBITS w).
    { rewrite Z.shiftr_div_pow2 by lia. pose proof (pow2_pos bit).
      split; [apply Z.div_pos; lia|].
      apply Z.div_lt_upper_bound; [lia|]. nia. }
    rewrite (to_Data_small w _ Hr).
    destruct (mask_result w (Z.shiftr word0 bit) bits Hr Hbits) as [_ ->].
    rewrite (field_single w) by lia. reflexivity.
Qed.


(** At offset zero of a [uint32_t] or [uint64_t] word, without the
    instruction, the two-word variant has no defined result. *)
Lemma extract_bit_range_0_undefined w word0 word1 bits :
  promotes_to_int w = false -> bits <> 0 ->
  extract_bit_range false w word0 word1 0 bits = None.
Proof.
  intros Hw Hb. unfold extract_bit_range.
  destruct (Z.eqb_spec bits 0); [contradiction|].
  unfold shrd. change (to_shift_t 0) with 0.
  rewrite shrd_emulated_0_undefined by assumption. reflexivity.
Qed.

(** ** set_bits *)

Ltac cmp_cases :=
  repeat match goal with
         | |- context [?a <? ?b] => destruct (Z.ltb_spec a b)
         | |- context [?a <=? ?b] => destruct (Z.leb_spec a b)
         | |- context [?a =? ?b] => destruct (Z.eqb_spec a b)
         end.

Ltac bool_simpl :=
  cbn [andb orb negb];
  rewrite ?andb_true_r, ?andb_false_r, ?orb_false_r, ?orb_true_r.

(** [set_bits] replaces the bits [[bit, bit + bits)] of [inp] by the low
    bits of [val] and keeps every other bit. *)
Lemma set_bits_ok w inp val bit bits :
  0 <= inp < 2 ^ TBITS w -> 0 <= val < 2 ^ TBITS w ->
  0 <= bit < TBITS w -> 0 <= bits < TBITS w -> bit + bits <= TBITS w ->
  exists r, set_bits w inp val bit bits = Some r /\
            0 <= r < 2 ^ TBITS w /\
            forall i, 0 <= i ->
              Z.testbit r i =
              if (bit <=? i) && (i <? bit + bits)
              then Z.testbit val (i - bit) else Z.testbit inp i.
Proof.
  intros Hin Hval Hbit Hbits Hfit. pose proof (TBITS_range w) as HW.
  pose proof (TBITS_PBITS w) as HP.
  assert (Hones : 0 <= Z.ones bits < 2 ^ TBITS w).
  { rewrite Z.ones_equiv. pose proof (pow2_pos bits).
    assert (2 ^ bits < 2 ^ TBITS w) by (apply pow2_lt_mono; lia). lia. }
  destruct (shl_ok w (Z.ones bits) bit) as (m' & Hm1 & Hm2);
    [assumption | lia | intros Hw; destruct (PBITS_small w Hw); lia |].
  destruct (shl_ok w val bit) as (v' & Hv1 & Hv2);
    [assumption | lia | intros Hw; destruct (PBITS_small w Hw); lia |].
  unfold set_bits. rewrite low_mask_ok by assumption. ub_step.
  rewrite (to_Data_small w _ Hones). rewrite Hm1. ub_step.
  rewrite Hv1. ub_step. rewrite Hm2, Hv2.
  eexists. split; [reflexivity|]. split; [apply to_Data_range|].
  intros i Hi. unfold to_Data, cnot.
  destruct (promotes_to_int w);
    Z.rewrite_bitwise; cmp_cases; bool_simpl; try lia; try reflexivity;
    rewrite (testbit_word_high w inp i) by (assumption || lia); reflexivity.
Qed.

(** ** Loads and stores *)

Lemma load_Some mem p x :
  load mem p = Some x -> 0 <= p < Z.of_nat (length mem).
Proof.
  unfold load. destruct (Z.ltb_spec p 0); [discriminate|].
  intros H1. apply lookup_lt_Some in H1. lia.
Qed.

Lemma load_in_range mem p :
  0 <= p < Z.of_nat (length mem) -> exists x, load mem p = Some x.
Proof.
  intros H. unfold load. destruct (Z.ltb_spec p 0); [lia|].
  destruct (lookup_lt_is_Some_2 mem (Z.to_nat p)) as [x Hx]; [lia|].
  exists x. exact Hx.
Qed.

Lemma load_words_ok w mem p x :
  words_ok w mem -> load mem p = Some x -> 0 <= x < 2 ^ TBITS w.
Proof.
  unfold words_ok, load. intros Hok. destruct (p <? 0); [discriminate|].
  intros Hl. rewrite Forall_lookup in Hok. exact (Hok _ _ Hl).
Qed.

Lemma store_ok mem p v :
  0 <= p < Z.of_nat (length mem) ->
  store mem p v = Some (<[Z.to_nat p := v]> mem).
Proof.
  intros H. unfold store.
  replace (0 <=? p) with true by (symmetry; apply Z.leb_le; lia).
  replace (p <? Z.of_nat (length mem)) with true
    by (symmetry; apply Z.ltb_lt; lia).
  reflexivity.
Qed.

Lemma load_insert_same mem p v :
  0 <= p < Z.of_nat (length mem) ->
  load (<[Z.to_nat p := v]> mem) p = Some v.
Proof.
  intros H. unfold load. destruct (Z.ltb_spec p 0); [lia|].
  apply list_lookup_insert_eq. lia.
Qed.

Lemma load_insert_other mem p q v :
  0 <= p -> q <> p -> load (<[Z.to_nat p := v]> mem) q = load mem q.
Proof.
  intros Hp Hne. unfold load. destruct (Z.ltb_spec q 0); [reflexivity|].
  apply list_lookup_insert_ne. lia.
Qed.

(** ** set_bit_range *)

Lemma testbit_window w word0 word1 i :
  0 <= word0 < 2 ^ TBITS w -> 0 <= i ->
  Z.testbit (window w word0 word1) i =
  if i <? TBITS w then Z.testbit word0 i
  else Z.testbit word1 (i - TBITS w).
Proof.
  intros H0 Hi. pose proof (TBITS_range w).
  rewrite (window_lor w) by assumption. rewrite Z.lor_spec.
  destruct (Z.ltb_spec i (TBITS w)).
  - rewrite Z.shiftl_spec_low by lia. apply orb_false_r.
  - rewrite (testbit_word_high w word0) by (assumption || lia).
    rewrite Z.shiftl_spec by lia. reflexivity.
Qed.

(** [set_bit_range] rewrites the words at [p] and [p + 1] so that the bits
    [[bit, bit + bits)] of their window hold the low bits of [val], and
    nothing else changes. *)
Lemma set_bit_range_window w mem p word0 word1 val bit bits :
  load mem p = Some word0 -> load mem (p + 1) = Some word1 ->
  0 <= word0 < 2 ^ TBITS w -> 0 <= word1 < 2 ^ TBITS w ->
  0 <= bit < TBITS w -> 0 <= bits < TBITS w -> 0 <= val < 2 ^ TBITS w ->
  exists r0 r1,
    set_bit_range w mem p val bit bits
    = Some (<[Z.to_nat (p + 1) := r1]> (<[Z.to_nat p := r0]> mem)) /\
    0 <= r0 < 2 ^ TBITS w /\ 0 <= r1 < 2 ^ TBITS w /\
    forall i, 0 <= i ->
      Z.testbit (window w r0 r1) i =
      if (bit <=? i) && (i <? bit + bits)
      then Z.testbit val (i - bit)
      else Z.testbit (window w word0 word1) i.
Proof.
  intros L0 L1 H0 H1 Hbit Hbits Hval'. pose proof (TBITS_range w) as HW.
  pose proof (TBITS_PBITS w) as HP.
  pose proof (load_Some _ _ _ L0) as Hp0.
  pose proof (load_Some _ _ _ L1) as Hp1.
  unfold set_bit_range.
  destruct (Z.eqb_spec bits 0) as [-> | Hne].
  - exists word0, word1. split; [|split; [assumption|split; [assumption|]]].
    + f_equal. unfold load in L0, L1.
      destruct (p <? 0); [discriminate|]. destruct (p + 1 <? 0); [discriminate|].
      rewrite (list_insert_id mem _ _ L0). rewrite (list_insert_id mem _ _ L1).
      reflexivity.
    + intros i Hi. cmp_cases; bool_simpl; try lia; reflexivity.
  - rewrite (to_int_small bits) by (pow_consts; lia).
    rewrite (to_shift_t_small (TBITS w - bit)) by (pow_consts; lia).
    rewrite (to_int_small (TBITS w - bit)) by (pow_consts; lia).
    set (bits0 := Z.min bits (TBITS w - bit)).
    assert (Hb0 : 0 < bits0 <= bits /\ bit + bits0 <= TBITS w) by (unfold bits0; lia).
    rewrite (to_shift_t_small (bits - bits0)) by (pow_consts; lia).
    rewrite (to_int_small (bits - bits0)) by (pow_consts; lia).
    rewrite (to_shift_t_small (bits - bits0)) by (pow_consts; lia).
    rewrite (to_shift_t_small bits0) by (pow_consts; lia).
    rewrite L0. ub_step.
    destruct (set_bits_ok w word0 val bit bits0) as (r0 & S0 & R0 & B0);
      try assumption; try lia.
    rewrite S0. ub_step. rewrite store_ok by assumption. ub_step.
    destruct (Z.eqb_spec (bits - bits0) 0) as [Hz | Hnz].
    + exists r0, word1. split; [|split; [assumption|split; [assumption|]]].
      * f_equal. symmetry. apply list_insert_id.
        rewrite list_lookup_insert_ne by lia.
        unfold load in L1. destruct (p + 1 <? 0); [discriminate | exact L1].
      * intros i Hi. rewrite !testbit_window by assumption.
        destruct (Z.ltb_spec i (TBITS w)).
        -- rewrite B0 by assumption.
           cmp_cases; bool_simpl; try lia; reflexivity.
        -- cmp_cases; bool_simpl; try lia; reflexivity.
    + rewrite load_insert_other by lia. rewrite L1. ub_step.
      rewrite shr_ok by lia. ub_step.
      assert (Hv : 0 <= Z.shiftr val bits0 < 2 ^ TBITS w).
      { rewrite Z.shiftr_div_pow2 by lia. pose proof (pow2_pos bits0).
        split; [apply Z.div_pos; lia|].
        apply Z.div_lt_upper_bound; [lia|]. nia. }
      rewrite (to_Data_small w _ Hv).
      destruct (set_bits_ok w word1 (Z.shiftr val bits0) 0 (bits - bits0))
        as (r1 & S1 & R1 & B1); try assumption; try lia.
      rewrite S1. ub_step.
      rewrite store_ok by (rewrite length_insert; assumption).
      exists r0, r1. split; [reflexivity|]. split; [assumption|].
      split; [assumption|].
      intros i Hi. rewrite !testbit_window by assumption.
      destruct (Z.ltb_spec i (TBITS w)).
      * rewrite B0 by assumption.
        cmp_cases; bool_simpl; try lia; reflexivity.
      * rewrite B1 by lia. rewrite Z.shiftr_spec by lia.
        cmp_cases; bool_simpl; try lia; try reflexivity.
        all: f_equal; lia.
Qed.

(** The same for a value that fits the field. *)
Lemma set_bit_range_ok w mem p word0 word1 val bit bits :
  load mem p = Some word0 -> load mem (p + 1) = Some word1 ->
  0 <= word0 < 2 ^ TBITS w -> 0 <= word1 < 2 ^ TBITS w ->
  0 <= bit < TBITS w -> 0 <= bits < TBITS w -> 0 <= val < 2 ^ bits ->
  exists r0 r1,
    set_bit_range w mem p val bit bits
    = Some (<[Z.to_nat (p + 1) := r1]> (<[Z.to_nat p := r0]> mem)) /\
    0 <= r0 < 2 ^ TBITS w /\ 0 <= r1 < 2 ^ TBITS w /\
    forall i, 0 <= i ->
      Z.testbit (window w r0 r1) i =
      if (bit <=? i) && (i <? bit + bits)
      then Z.testbit val (i - bit)
      else Z.testbit (window w word0 word1) i.
Proof.
  intros L0 L1 H0 H1 Hbit Hbits Hval.
  apply set_bit_range_window; try assumption.
  pose proof (TBITS_range w).
  assert (2 ^ bits < 2 ^ TBITS w) by (apply pow2_lt_mono; lia). lia.
Qed.

Lemma testbit_above x n i :
  0 <= x < 2 ^ n -> 0 <= n <= i -> Z.testbit x i = false.
Proof.
  intros Hx Hi. rewrite <- (Z.mod_small x (2 ^ n)) by assumption.
  apply Z.mod_pow2_bits_high. lia.
Qed.

(** A field whose window bits are those of [val] is [val]. *)
Lemma field_of_window_bits w r0 r1 bit bits val :
  0 <= bit -> 0 <= bits -> 0 <= val < 2 ^ bits ->
  (forall i, bit <= i < bit + bits ->
             Z.testbit (window w r0 r1) i = Z.testbit val (i - bit)) ->
  field w r0 r1 bit bits = val.
Proof.
  intros Hbit Hbits Hval Hw. unfold field.
  apply Z.bits_inj'; intros i Hi.
  rewrite Z.testbit_mod_pow2 by lia.
  destruct (Z.ltb_spec i bits).
  - rewrite Z.div_pow2_bits by lia. rewrite Hw by lia.
    cbn [andb]. f_equal. lia.
  - rewrite (testbit_above val bits i) by lia. reflexivity.
Qed.

(** C1. Round trip: in every build and for every word width, writing
    [val < 2^bits] with [set_bit_range] at [(bit, bits)], [bit] and
    [bits] in [[0, W)], into an array that has the trailing padding word,
    and then reading with [extract_bit_range] at the same [(bit, bits)]
    returns [val]; the array keeps its length, and every bit of every
    word outside the bit positions
    [[p * W + bit, p * W + bit + bits)] is as before the write. *)
Theorem set_extract_roundtrip intel_isa w mem p val bit bits :
  words_ok w mem -> 0 <= p -> p + 1 < Z.of_nat (length mem) ->
  0 <= bit < TBITS w -> 0 <= bits < TBITS w -> 0 <= val < 2 ^ bits ->
  exists mem',
    set_bit_range w mem p val bit bits = Some mem' /\
    extract_bit_range_ptr intel_isa w mem' p bit bits = Some val /\
    length mem' = length mem /\
    forall q x, load mem q = Some x ->
      exists x', load mem' q = Some x' /\ 0 <= x' < 2 ^ TBITS w /\
        forall i, 0 <= i < TBITS w ->
          ~ (p * TBITS w + bit <= q * TBITS w + i
             < p * TBITS w + bit + bits) ->
          Z.testbit x' i = Z.testbit x i.
Proof.
  intros Hok Hp Hpad Hbit Hbits Hval. pose proof (TBITS_range w) as HW.
  destruct (load_in_range mem p) as [word0 L0]; [lia|].
  destruct (load_in_range mem (p + 1)) as [word1 L1]; [lia|].
  pose proof (load_words_ok w mem p word0 Hok L0) as H0.
  pose proof (load_words_ok w mem (p + 1) word1 Hok L1) as H1.
  destruct (set_bit_range_ok w mem p word0 word1 val bit bits)
    as (r0 & r1 & Hset & R0 & R1 & Hbitsw); try assumption.
  set (mem' := <[Z.to_nat (p + 1) := r1]> (<[Z.to_nat p := r0]> mem)) in *.
  assert (L0' : load mem' p = Some r0).
  { unfold mem'. rewrite load_insert_other by lia.
    apply load_insert_same. lia. }
  assert (L1' : load mem' (p + 1) = Some r1).
  { unfold mem'. apply load_insert_same. rewrite length_insert. lia. }
  exists mem'. split; [exact Hset|]. split; [|split].
  - rewrite (extract_bit_range_ptr_ok intel_isa w mem' p r0 r1)
      by assumption.
    f_equal. apply field_of_window_bits; try lia.
    intros i Hi. rewrite Hbitsw by lia.
    replace ((bit <=? i) && (i <? bit + bits)) with true; [reflexivity|].
    symmetry. apply andb_true_iff. split; [apply Z.leb_le | apply Z.ltb_lt]; lia.
  - unfold mem'. rewrite !length_insert. reflexivity.
  - intros q x Lq.
    destruct (Z.eq_dec q p) as [-> | Hq0];
      [| destruct (Z.eq_dec q (p + 1)) as [-> | Hq1]].
    + exists r0. split; [exact L0'|]. split; [exact R0|].
      intros i Hi Hout. assert (x = word0) by congruence. subst x.
      specialize (Hbitsw i (proj1 Hi)).
      rewrite !testbit_window in Hbitsw by (assumption || lia).
      replace (i <? TBITS w) with true in Hbitsw
        by (symmetry; apply Z.ltb_lt; lia).
      rewrite Hbitsw. cmp_cases; bool_simpl; try lia; reflexivity.
    + exists r1. split; [exact L1'|]. split; [exact R1|].
      intros i Hi Hout. assert (x = word1) by congruence. subst x.
      assert (Hi' : 0 <= i + TBITS w) by lia.
      specialize (Hbitsw (i + TBITS w) Hi').
      rewrite !testbit_window in Hbitsw by (assumption || lia).
      replace (i + TBITS w <? TBITS w) with false in Hbitsw
        by (symmetry; apply Z.ltb_ge; lia).
      replace (i + TBITS w - TBITS w) with i in Hbitsw by lia.
      rewrite Hbitsw. cmp_cases; bool_simpl; try lia; reflexivity.
    + exists x. split.
      * unfold mem'. rewrite !load_insert_other by lia. exact Lq.
      * split; [exact (load_words_ok w mem q x Hok Lq)|]. reflexivity.
Qed.

Lemma set_extract_roundtrip_witness :
  exists mem',
    set_bit_range W16 [0xABCD; 0x1234; 0] 0 0x2A 13 6 = Some mem' /\
    extract_bit_range_ptr false W16 mem' 0 13 6 = Some 0x2A.
Proof.
  destruct (set_extract_roundtrip false W16 [0xABCD; 0x1234; 0] 0 0x2A 13 6)
    as (mem' & Hset & Hget & _).
  - unfold words_ok. repeat constructor; cbn; lia.
  - lia.
  - cbn. lia.
  - cbn. lia.
  - cbn. lia.
  - cbn. lia.
  - exists mem'. split; assumption.
Defined.

(** ** Claims on the shift and on single-field extraction *)

(** Where the emulation is defined it agrees with the accelerated
    [shrd]: for every count in [[1, TBITS)], and for a zero count on the
    promoted word types. *)
Lemma shrd_emulated_agrees w low high bits :
  0 <= low < 2 ^ TBITS w -> 0 <= high < 2 ^ TBITS w ->
  0 <= bits < TBITS w ->
  (promotes_to_int w = false -> 0 < bits) ->
  shrd_emulated w low high bits = shrd true w low high bits.
Proof.
  intros Hl Hh Hb Hp.
  rewrite shrd_emulated_ok by assumption.
  rewrite shrd_ok by (try assumption; discriminate). reflexivity.
Qed.

(** C4. [shrd_emulated<uint32_t>(0, 1, 0)] shifts [high] left by 32, the
    width of its type, which C++ leaves undefined, whereas the
    accelerated [shrd] returns [low] for a zero count; so for
    [bits = 0] the two do not return the same value on 32-bit words (the
    same holds for 64-bit words). *)
Theorem shrd_emulated_zero_count_diverges :
  shrd_emulated W32 0 1 0 = None /\ shrd true W32 0 1 0 = Some 0 /\
  shrd_emulated W64 0 1 0 = None /\ shrd true W64 0 1 0 = Some 0.
Proof. repeat split; reflexivity. Qed.

(** The pointer variant takes the single-word path exactly when the field
    does not straddle, and the double-word shift otherwise. *)
Lemma extract_bit_range_ptr_paths intel_isa w mem p word0 word1 bit bits :
  load mem p = Some word0 -> load mem (p + 1) = Some word1 ->
  0 <= word0 < 2 ^ TBITS w -> 0 <= word1 < 2 ^ TBITS w ->
  0 <= bit < TBITS w -> 0 <= bits < TBITS w ->
  exists r,
    extract_bit_range_ptr intel_isa w mem p bit bits = Some r /\
    r = field w word0 word1 bit bits /\
    0 <= r < 2 ^ bits /\
    (forall i, bits <= i -> Z.testbit r i = false) /\
    (bit + bits <= TBITS w ->
     r = Z.land (Z.shiftr word0 bit) (Z.ones bits)) /\
    (TBITS w < bit + bits ->
     exists s, shrd intel_isa w word0 word1 bit = Some s /\
               r = Z.land s (Z.ones bits)).
Proof.
  intros L0 L1 H0 H1 Hbit Hbits.
  exists (field w word0 word1 bit bits).
  split; [apply extract_bit_range_ptr_ok; assumption|].
  split; [reflexivity|].
  pose proof (field_range w word0 word1 bit bits (proj1 Hbits)) as Hr.
  split; [exact Hr|]. split; [|split].
  - intros i Hi. apply (testbit_above _ bits); [exact Hr | lia].
  - intros Hfit. apply field_single; lia.
  - intros Hst. exists (shift_window w word0 word1 bit). split.
    + apply shrd_ok; try assumption. intros; lia.
    + apply field_shift_window. lia.
Qed.

(** C2. In a build without the instruction, the two-word
    [extract_bit_range<uint32_t>(0, 1, 0, 1)] calls [shrd_emulated] with a
    zero count and has no defined result, where the field is 0; the
    pointer variant on the same words, and the build with the
    instruction, return the field. *)
Theorem extract_bit_range_offset_zero_u32 :
  extract_bit_range false W32 0 1 0 1 = None /\
  field W32 0 1 0 1 = 0 /\
  extract_bit_range true W32 0 1 0 1 = Some 0 /\
  extract_bit_range_ptr false W32 [0; 1] 0 0 1 = Some 0.
Proof. repeat split; reflexivity. Qed.

(** C7. Zero-width identity: with [bits = 0] the pointer variant returns
    0 for every offset in [[0, W)] and every word, the two-word variant
    returns 0 for all words and offsets, and [set_bit_range] returns the
    array as it is, for every array, pointer, value and offset. *)
Theorem zero_width_identity intel_isa w mem p word0 bit :
  load mem p = Some word0 -> 0 <= bit < TBITS w ->
  extract_bit_range_ptr intel_isa w mem p bit 0 = Some 0 /\
  (forall p0 p1 bit', extract_bit_range intel_isa w p0 p1 bit' 0 = Some 0) /\
  (forall mem' q val bit', set_bit_range w mem' q val bit' 0 = Some mem').
Proof.
  intros L0 Hbit. pose proof (TBITS_range w) as HW.
  pose proof (TBITS_PBITS w) as HP.
  split; [|split].
  - unfold extract_bit_range_ptr. rewrite L0. ub_step.
    rewrite Z.add_0_r, to_size_t_small by (pow_consts; lia).
    replace (TBITS w <? bit) with false by (symmetry; apply Z.ltb_ge; lia).
    rewrite shr_ok by lia. do 2 ub_step.
    destruct (mask_result w (to_Data w (Z.shiftr word0 bit)) 0
                (to_Data_range _ _)) as [_ ->]; [lia|].
    rewrite Z.land_0_r. reflexivity.
  - intros. reflexivity.
  - intros. reflexivity.
Qed.

Lemma zero_width_identity_witness :
  extract_bit_range_ptr false W32 [0xFFFFFFFF] 0 31 0 = Some 0.
Proof.
  apply (zero_width_identity false W32 [0xFFFFFFFF] 0 0xFFFFFFFF 31).
  - reflexivity.
  - cbn. lia.
Defined.

(** A whole word at offset 0: defined, and the word itself, when the
    word type is promoted to [int] ... *)
Lemma extract_full_word_promoted intel_isa w mem p word0 :
  promotes_to_int w = true ->
  load mem p = Some word0 -> 0 <= word0 < 2 ^ TBITS w ->
  extract_bit_range_ptr intel_isa w mem p 0 (TBITS w) = Some word0.
Proof.
  intros Hw L0 H0. pose proof (TBITS_range w) as HW.
  pose proof (TBITS_PBITS w) as HP.
  unfold extract_bit_range_ptr. rewrite L0. ub_step.
  rewrite Z.add_0_l, to_size_t_small by (pow_consts; lia).
  rewrite Z.ltb_irrefl. rewrite shr_ok by lia. do 2 ub_step.
  rewrite Z.shiftr_0_r, (to_Data_small w _ H0).
  unfold nonzero. replace (TBITS w =? 0) with false
    by (symmetry; apply Z.eqb_neq; lia).
  rewrite Z.mul_1_r, (arith_ok w _ H0). ub_step.
  rewrite low_mask_promoted_full by assumption. ub_step.
  rewrite (to_Data_small w _ H0), Z.land_ones by lia.
  rewrite (Z.mod_small _ _ H0). rewrite (to_Data_small w _ H0). reflexivity.
Qed.

(** ... and undefined for [uint32_t] and [uint64_t], whose mask
    [(Data(1) << bits) - 1] shifts by the width of the type. *)
Lemma extract_full_word_undefined intel_isa w mem p :
  promotes_to_int w = false ->
  extract_bit_range_ptr intel_isa w mem p 0 (TBITS w) = None.
Proof.
  intros Hw. pose proof (TBITS_range w) as HW.
  pose proof (TBITS_PBITS w) as HP.
  unfold extract_bit_range_ptr.
  destruct (load mem p) as [word0|]; [ub_step | reflexivity].
  rewrite Z.add_0_l, to_size_t_small by (pow_consts; lia).
  rewrite Z.ltb_irrefl. rewrite shr_ok by lia. do 2 ub_step.
  unfold arith at 1. rewrite Hw. ub_step.
  rewrite low_mask_full_undefined by assumption. reflexivity.
Qed.

(** C9. For [uint32_t] and [uint64_t], [extract_bit_range(p, 0, W)]
    takes the single-word path and then builds its mask with
    [Data(1) << W], a shift by the width of the type: it has no defined
    result, in either build.  For [uint8_t] and [uint16_t] it returns
    [word0]. *)
Theorem extract_full_word_u32 :
  extract_bit_range_ptr false W32 [0xDEADBEEF; 0] 0 0 32 = None /\
  extract_bit_range_ptr true W32 [0xDEADBEEF; 0] 0 0 32 = None /\
  extract_bit_range_ptr false W64 [0xDEADBEEF; 0] 0 0 64 = None /\
  extract_bit_range_ptr false W16 [0xBEEF; 0] 0 0 16 = Some 0xBEEF /\
  extract_bit_range_ptr false W8 [0xEF; 0] 0 0 8 = Some 0xEF.
Proof. repeat split; reflexivity. Qed.

(** ** Memory buffers *)

Lemma sumZ_nonneg ks : Forall (fun k => 0 <= k) ks -> 0 <= sumZ ks.
Proof.
  induction 1 as [| k ks Hk _ IH]; cbn; [lia|].
  unfold sumZ in IH. lia.
Qed.

Lemma sumZ_cons k ks : sumZ (k :: ks) = k + sumZ ks.
Proof. reflexivity. Qed.

(** Every reachable state of the buffered strategy caches the two words
    at its pointer. *)
Lemma Buffered_reachable_cache mem b :
  Buffered_Mem_Buffer.reachable mem b ->
  load mem (Buffered_Mem_Buffer.data b) = Some (Buffered_Mem_Buffer.b0 b) /\
  load mem (Buffered_Mem_Buffer.data b + 1)
  = Some (Buffered_Mem_Buffer.b1 b).
Proof.
  induction 1 as [p b Hmk | b offset b' _ [IH0 IH1] Hadd].
  - unfold Buffered_Mem_Buffer.make in Hmk.
    destruct (load mem p) as [x0|] eqn:L0; [|discriminate].
    destruct (load mem (p + 1)) as [x1|] eqn:L1; [|discriminate].
    cbn in Hmk. injection Hmk as <-. cbn. split; assumption.
  - unfold Buffered_Mem_Buffer.plus_assign in Hadd.
    destruct (Z.eqb_spec offset 0) as [-> | H0].
    + cbn in Hadd. injection Hadd as <-. cbn.
      rewrite Z.add_0_r. split; assumption.
    + destruct (Z.eqb_spec offset 1) as [-> | H1].
      * cbn [ub_bind] in Hadd.
        destruct (load mem (Buffered_Mem_Buffer.data b + 1 + 1))
          as [x1|] eqn:L1; [|discriminate].
        cbn in Hadd. injection Hadd as <-. cbn. split; assumption.
      * destruct (load mem (Buffered_Mem_Buffer.data b + offset))
          as [x0|] eqn:L0; [|discriminate].
        cbn [ub_bind] in Hadd.
        destruct (load mem (Buffered_Mem_Buffer.data b + offset + 1))
          as [x1|] eqn:L1; [|discriminate].
        cbn in Hadd. injection Hadd as <-. cbn. split; assumption.
Qed.

(** One advance of the buffered strategy from a state that caches the
    words at [q]: it reaches the words at [q + k]. *)
Lemma Buffered_plus_assign_ok mem b k c n :
  load mem (Buffered_Mem_Buffer.data b) = Some (Buffered_Mem_Buffer.b0 b) ->
  load mem (Buffered_Mem_Buffer.data b + 1)
  = Some (Buffered_Mem_Buffer.b1 b) ->
  load mem (Buffered_Mem_Buffer.data b + k) = Some c ->
  load mem (Buffered_Mem_Buffer.data b + k + 1) = Some n ->
  Buffered_Mem_Buffer.plus_assign mem b k
  = Some (Buffered_Mem_Buffer.Build (Buffered_Mem_Buffer.data b + k) c n).
Proof.
  intros C0 C1 Lc Ln. unfold Buffered_Mem_Buffer.plus_assign.
  destruct (Z.eqb_spec k 0) as [-> | H0].
  - rewrite Z.add_0_r in *. cbn. repeat f_equal; congruence.
  - destruct (Z.eqb_spec k 1) as [-> | H1].
    + rewrite Ln. cbn. repeat f_equal; congruence.
    + rewrite Lc, Ln. reflexivity.
Qed.

Lemma observe_both mem ks :
  forall q bb,
    0 <= q -> Forall (fun k => 0 <= k) ks ->
    q + sumZ ks + 1 < Z.of_nat (length mem) ->
    Buffered_Mem_Buffer.data bb = q ->
    load mem q = Some (Buffered_Mem_Buffer.b0 bb) ->
    load mem (q + 1) = Some (Buffered_Mem_Buffer.b1 bb) ->
    exists obs,
      mb_observe mem (Simple_Mem_Buffer.make q) ks = Some obs /\
      mb_observe mem bb ks = Some obs /\
      length obs = length ks /\
      forall (j : nat) c n, obs !! j = Some (c, n) ->
        load mem (q + sumZ (take (S j) ks)) = Some c /\
        load mem (q + sumZ (take (S j) ks) + 1) = Some n.
Proof.
  induction ks as [| k ks IH]; intros q bb Hq Hks Hlen Hd C0 C1.
  - exists []. split; [reflexivity | split; [reflexivity | split; [reflexivity|]]].
    intros j c n Hj. rewrite lookup_nil in Hj. discriminate.
  - subst q. inversion Hks as [| ? ? Hk Hks']; subst.
    pose proof (sumZ_nonneg ks Hks') as Hs. rewrite sumZ_cons in Hlen.
    destruct (load_in_range mem (Buffered_Mem_Buffer.data bb + k))
      as [c Lc]; [lia|].
    destruct (load_in_range mem (Buffered_Mem_Buffer.data bb + k + 1))
      as [n Ln]; [lia|].
    destruct (IH (Buffered_Mem_Buffer.data bb + k)
                (Buffered_Mem_Buffer.Build
                   (Buffered_Mem_Buffer.data bb + k) c n))
      as (rest & Hs1 & Hs2 & Hl & Hix);
      [lia | assumption | lia | reflexivity | exact Lc | exact Ln |].
    exists ((c, n) :: rest). split; [|split; [|split]].
    + cbn [mb_observe mb_plus_assign mb_curr mb_next Simple_MemBuf].
      ub_step.
      change (Simple_Mem_Buffer.plus_assign
                (Simple_Mem_Buffer.make (Buffered_Mem_Buffer.data bb)) k)
        with (Simple_Mem_Buffer.make (Buffered_Mem_Buffer.data bb + k)).
      unfold Simple_Mem_Buffer.curr, Simple_Mem_Buffer.next,
        Simple_Mem_Buffer.make in *.
      cbn [Simple_Mem_Buffer.data].
      rewrite Lc. ub_step. rewrite Ln. ub_step.
      rewrite Hs1. reflexivity.
    + cbn [mb_observe mb_plus_assign mb_curr mb_next Buffered_MemBuf].
      rewrite (Buffered_plus_assign_ok mem bb k c n) by assumption.
      ub_step. do 2 ub_step. rewrite Hs2. reflexivity.
    + cbn. rewrite Hl. reflexivity.
    + intros j c' n' Hj. destruct j as [| j].
      * cbn in Hj. injection Hj as <- <-.
        cbn [take]. rewrite sumZ_cons. cbn [sumZ foldr].
        rewrite Z.add_0_r. split; assumption.
      * cbn in Hj. destruct (Hix j c' n' Hj) as [A1 A2].
        change (take (S (S j)) (k :: ks)) with (k :: take (S j) ks).
        rewrite sumZ_cons, Z.add_assoc. split; assumption.
Qed.

(** C5. Buffer-strategy equivalence: over the same array and start index,
    for every sequence of non-negative advances that stays inside the
    array (the word after the last position exists), the direct and the
    cached strategy report the same [curr()] and [next()] after each
    advance: the word at the start index plus the advances so far, and
    the word after it. *)
Theorem buffer_strategies_equivalent mem p ks :
  0 <= p -> Forall (fun k => 0 <= k) ks ->
  p + sumZ ks + 1 < Z.of_nat (length mem) ->
  exists (sb : Simple_Mem_Buffer.t) (bb : Buffered_Mem_Buffer.t) obs,
    mb_make mem p = Some sb /\ mb_make mem p = Some bb /\
    mb_observe mem sb ks = Some obs /\
    mb_observe mem bb ks = Some obs /\
    length obs = length ks /\
    forall (j : nat) c n, obs !! j = Some (c, n) ->
      load mem (p + sumZ (take (S j) ks)) = Some c /\
      load mem (p + sumZ (take (S j) ks) + 1) = Some n.
Proof.
  intros Hp Hks Hlen. pose proof (sumZ_nonneg ks Hks) as Hs.
  destruct (load_in_range mem p) as [x0 L0]; [lia|].
  destruct (load_in_range mem (p + 1)) as [x1 L1]; [lia|].
  destruct (observe_both mem ks p (Buffered_Mem_Buffer.Build p x0 x1))
    as (obs & H1 & H2 & H3 & H4); try assumption; try reflexivity.
  exists (Simple_Mem_Buffer.make p), (Buffered_Mem_Buffer.Build p x0 x1), obs.
  split; [reflexivity|]. split.
  - cbn [mb_make Buffered_MemBuf]. unfold Buffered_Mem_Buffer.make.
    rewrite L0, L1. reflexivity.
  - split; [exact H1|]. split; [exact H2|]. split; [exact H3 | exact H4].
Qed.

Lemma buffer_strategies_equivalent_witness :
  exists (sb : Simple_Mem_Buffer.t) (bb : Buffered_Mem_Buffer.t) obs,
    mb_make [10; 11; 12; 13; 14] 0 = Some sb /\
    mb_make [10; 11; 12; 13; 14] 0 = Some bb /\
    mb_observe [10; 11; 12; 13; 14] sb [1; 0; 2] = Some obs /\
    mb_observe [10; 11; 12; 13; 14] bb [1; 0; 2] = Some obs.
Proof.
  destruct (buffer_strategies_equivalent [10; 11; 12; 13; 14] 0 [1; 0; 2])
    as (sb & bb & obs & M1 & M2 & O1 & O2 & _).
  - lia.
  - repeat constructor; lia.
  - cbn. lia.
  - exists sb, bb, obs. repeat split; assumption.
Defined.

(** C10. In a reachable state of the cached strategy, [operator ++]
    leaves the pointer where it is and makes both [curr()] and [next()]
    the word that [next()] returned before; [operator += 1] from the same
    state moves the pointer by one word, makes [curr()] that same word
    and [next()] the word two past the old pointer. *)
Theorem Buffered_post_increment_repeats_next mem b :
  Buffered_Mem_Buffer.reachable mem b ->
  exists b',
    Buffered_Mem_Buffer.post_increment mem b = Some b' /\
    Buffered_Mem_Buffer.data b' = Buffered_Mem_Buffer.data b /\
    Buffered_Mem_Buffer.curr b' = Buffered_Mem_Buffer.next b /\
    Buffered_Mem_Buffer.next b' = Buffered_Mem_Buffer.next b /\
    Buffered_Mem_Buffer.curr b' = Buffered_Mem_Buffer.next b' /\
    forall b'', Buffered_Mem_Buffer.plus_assign mem b 1 = Some b'' ->
      Buffered_Mem_Buffer.data b'' = Buffered_Mem_Buffer.data b + 1 /\
      Buffered_Mem_Buffer.curr b'' = Buffered_Mem_Buffer.next b /\
      load mem (Buffered_Mem_Buffer.data b + 2)
      = Some (Buffered_Mem_Buffer.next b'').
Proof.
  intros Hr. destruct (Buffered_reachable_cache mem b Hr) as [C0 C1].
  unfold Buffered_Mem_Buffer.post_increment. rewrite C1. ub_step.
  eexists. split; [reflexivity|]. cbn.
  repeat (split; [reflexivity|]).
  intros b'' Hadd. unfold Buffered_Mem_Buffer.plus_assign in Hadd.
  cbn [Z.eqb Pos.eqb ub_bind] in Hadd.
  destruct (load mem (Buffered_Mem_Buffer.data b + 1 + 1)) as [x|] eqn:L2;
    [|discriminate].
  cbn in Hadd. injection Hadd as <-. cbn.
  replace (Buffered_Mem_Buffer.data b + 2)
    with (Buffered_Mem_Buffer.data b + 1 + 1) by lia.
  repeat split. exact L2.
Qed.

Lemma Buffered_post_increment_repeats_next_witness :
  exists b',
    Buffered_Mem_Buffer.post_increment [10; 11; 12]
      (Buffered_Mem_Buffer.Build 0 10 11) = Some b' /\
    Buffered_Mem_Buffer.curr b' = 11 /\ Buffered_Mem_Buffer.next b' = 11.
Proof.
  destruct (Buffered_post_increment_repeats_next [10; 11; 12]
              (Buffered_Mem_Buffer.Build 0 10 11))
    as (b' & Hp & _ & Hc & Hn & _).
  - apply (Buffered_Mem_Buffer.reach_make _ 0). reflexivity.
  - exists b'. repeat split; assumption.
Defined.

(** ** The bit cursor *)

Lemma int_add_ok a b :
  INT_MIN <= a + b <= INT_MAX -> int_add a b = Some (a + b).
Proof.
  intros H. unfold int_add.
  replace (INT_MIN <=? a + b) with true by (symmetry; apply Z.leb_le; lia).
  replace (a + b <=? INT_MAX) with true by (symmetry; apply Z.leb_le; lia).
  reflexivity.
Qed.

Lemma int_add_overflow a b : INT_MAX < a + b -> int_add a b = None.
Proof.
  intros H. unfold int_add.
  replace (a + b <=? INT_MAX) with false by (symmetry; apply Z.leb_gt; lia).
  rewrite andb_false_r. reflexivity.
Qed.

(** Folding the overflow of the bit offset into the word index. *)
Lemma div_mod_carry W t bits :
  0 < W ->
  t / W + (t mod W + bits) / W = (t + bits) / W /\
  (t mod W + bits) mod W = (t + bits) mod W.
Proof.
  intros HW.
  replace (t + bits) with (t mod W + bits + t / W * W)
    by (pose proof (Z.div_mod t W); lia).
  rewrite Z.div_add, Z.mod_add by lia. lia.
Qed.

(** The normalisation of [bit_ofs] and the word count handed to the
    buffer, for an offset that did not overflow. *)
Lemma normalise_ok w ofs :
  0 <= ofs <= INT_MAX ->
  to_int (to_size_t ofs / TBITS w) = ofs / TBITS w /\
  to_int (to_size_t ofs mod TBITS w) = ofs mod TBITS w.
Proof.
  intros Ho. pose proof (TBITS_range w) as HW. unfold INT_MAX in Ho.
  rewrite to_size_t_small by (pow_consts; lia).
  pose proof (Z.mod_pos_bound ofs (TBITS w)).
  assert (0 <= ofs / TBITS w <= ofs).
  { split; [apply Z.div_pos; lia|]. apply Z.div_le_upper_bound; nia. }
  split; apply to_int_small; pow_consts; lia.
Qed.

(** One [advance] of the cursor over the direct strategy. *)
Lemma Bit_Buffer_advance_ok w mem q o bits :
  0 <= o -> 0 <= bits -> o + bits <= INT_MAX ->
  Bit_Buffer.advance w mem (cursor_at q o) bits
  = Some (cursor_at (q + (o + bits) / TBITS w) ((o + bits) mod TBITS w)).
Proof.
  intros Ho Hb Hfit. unfold Bit_Buffer.advance, cursor_at.
  cbn [Bit_Buffer.bit_ofs Bit_Buffer.data].
  rewrite int_add_ok by (unfold INT_MIN; pow_consts; lia). ub_step.
  destruct (normalise_ok w (o + bits)) as [-> ->]; [lia|].
  reflexivity.
Qed.

Lemma sumZ_nonneg_fit w counts :
  forall o, advances_fit w o counts -> 0 <= sumZ counts.
Proof.
  induction counts as [| c rest IH]; intros o Hf; [cbn; lia|].
  destruct Hf as (Hc & _ & Hrest). rewrite sumZ_cons.
  specialize (IH _ Hrest). lia.
Qed.

Lemma advances_fit_take w counts :
  forall o (j : nat), advances_fit w o counts ->
                      0 <= sumZ (take j counts).
Proof.
  induction counts as [| c rest IH]; intros o j Hf.
  - rewrite take_nil. cbn. lia.
  - destruct j as [| j]; [cbn; lia|].
    destruct Hf as (Hc & _ & Hrest). cbn [take]. rewrite sumZ_cons.
    specialize (IH _ j Hrest). lia.
Qed.

Lemma advance_all_ok w mem counts :
  forall q o,
    0 <= o < TBITS w -> advances_fit w o counts ->
    exists bs,
      Bit_Buffer.advance_all w mem (cursor_at q o) counts = Some bs /\
      length bs = length counts /\
      forall (j : nat) b, bs !! j = Some b ->
        word_index b = q + (o + sumZ (take (S j) counts)) / TBITS w /\
        Bit_Buffer.bit_ofs b = (o + sumZ (take (S j) counts)) mod TBITS w /\
        q + (o + sumZ (take j counts)) / TBITS w <= word_index b.
Proof.
  induction counts as [| bits rest IH]; intros q o Ho Hf.
  - exists []. split; [reflexivity | split; [reflexivity|]].
    intros j b Hj. rewrite lookup_nil in Hj. discriminate.
  - destruct Hf as (Hb & Hfit & Hrest). pose proof (TBITS_range w) as HW.
    pose proof (Z.mod_pos_bound (o + bits) (TBITS w)) as Hm.
    destruct (IH (q + (o + bits) / TBITS w) ((o + bits) mod TBITS w))
      as (bs & Hall & Hlen & Hix); [lia | exact Hrest |].
    exists (cursor_at (q + (o + bits) / TBITS w) ((o + bits) mod TBITS w)
              :: bs).
    split; [|split].
    + cbn [Bit_Buffer.advance_all].
      rewrite Bit_Buffer_advance_ok by lia. ub_step.
      rewrite Hall. reflexivity.
    + cbn. rewrite Hlen. reflexivity.
    + intros j b Hj. destruct j as [| j].
      * cbn in Hj. injection Hj as <-.
        cbn [take]. rewrite sumZ_cons. cbn [sumZ foldr take].
        rewrite !Z.add_0_r. unfold word_index, cursor_at. cbn.
        split; [reflexivity | split; [reflexivity|]].
        assert (o / TBITS w <= (o + bits) / TBITS w)
          by (apply Z.div_le_mono; lia).
        lia.
      * cbn in Hj. destruct (Hix j b Hj) as (D1 & D2 & D3).
        change (take (S (S j)) (bits :: rest))
          with (bits :: take (S j) rest).
        change (take (S j) (bits :: rest)) with (bits :: take j rest).
        rewrite !sumZ_cons.
        destruct (div_mod_carry (TBITS w) (o + bits)
                    (sumZ (take (S j) rest))) as [E1 E2]; [lia|].
        destruct (div_mod_carry (TBITS w) (o + bits)
                    (sumZ (take j rest))) as [E3 _]; [lia|].
        rewrite !Z.add_assoc. lia.
Qed.

(** C8 (as the code has it). Cursor normalisation: starting from bit
    offset 0 at word [p], for every sequence of advances with
    [bits >= 0] in which no [bit_ofs += bits] exceeds [INT_MAX], every
    [advance] returns, and after each one the bit offset is in [[0, W)],
    the word index is not below what it was before that advance, and
    (word index - p, bit offset) is (total bits advanced div W, total
    bits advanced mod W). *)
Theorem cursor_normalised w mem p counts :
  advances_fit w 0 counts ->
  exists b0 bs,
    Bit_Buffer.make mem p = Some b0 /\
    Bit_Buffer.advance_all w mem b0 counts = Some bs /\
    length bs = length counts /\
    forall (j : nat) b, bs !! j = Some b ->
      0 <= Bit_Buffer.bit_ofs b < TBITS w /\
      word_index b = p + sumZ (take (S j) counts) / TBITS w /\
      Bit_Buffer.bit_ofs b = sumZ (take (S j) counts) mod TBITS w /\
      p + sumZ (take j counts) / TBITS w <= word_index b.
Proof.
  intros Hf. pose proof (TBITS_range w) as HW.
  destruct (advance_all_ok w mem counts p 0) as (bs & Hall & Hlen & Hix);
    [lia | exact Hf |].
  exists (cursor_at p 0), bs.
  split; [reflexivity|]. split; [exact Hall|]. split; [exact Hlen|].
  intros j b Hj. destruct (Hix j b Hj) as (D1 & D2 & D3).
  rewrite !Z.add_0_l in *.
  pose proof (Z.mod_pos_bound (sumZ (take (S j) counts)) (TBITS w)).
  repeat split; try assumption; lia.
Qed.

Lemma cursor_normalised_witness :
  exists b0 bs,
    Bit_Buffer.make (B := Simple_Mem_Buffer.t) [] 0 = Some b0 /\
    Bit_Buffer.advance_all W16 [] b0 [5; 13; 16; 0; 2147483645] = Some bs.
Proof.
  destruct (cursor_normalised W16 [] 0 [5; 13; 16; 0; 2147483645])
    as (b0 & bs & Hmk & Hall & _).
  - cbn. repeat split; apply Z.leb_le; reflexivity.
  - exists b0, bs. split; assumption.
Defined.

(** C8 as stated fails: after [advance(1)], [advance(INT_MAX)] overflows
    [bit_ofs += bits], so there is no cursor after it. *)
Lemma cursor_advance_overflow :
  Bit_Buffer.advance_all W64 [] (cursor_at 0 0) [1; 2147483647] = None /\
  ~ (exists bs : list (Bit_Buffer.t (B := Simple_Mem_Buffer.t)),
        Bit_Buffer.advance_all W64 [] (cursor_at 0 0) [1; 2147483647]
        = Some bs /\
        forall b, In b bs -> 0 <= Bit_Buffer.bit_ofs b < TBITS W64).
Proof.
  assert (E : Bit_Buffer.advance_all W64 [] (cursor_at 0 0) [1; 2147483647]
              = None) by reflexivity.
  split; [exact E|]. intros (bs & Hbs & _). rewrite E in Hbs. discriminate.
Qed.


(** ** Sequential extraction *)


(** C6. In a build without the instruction, the first
    [Bit_Buffer<uint32_t>::extract] of a non-empty field, at bit offset 0,
    goes through [shrd_emulated] with a zero count and has no defined
    result, while the direct [extract_bit_range] call on the array
    returns the field.  With the instruction the two agree. *)
Theorem stream_extract_offset_zero_u32 :
  Bit_Buffer.extract_all false W32 [0; 1; 0] (cursor_at 0 0) [1] = None /\
  extract_direct false W32 [0; 1; 0] 0 0 [1] = Some [0] /\
  Bit_Buffer.extract_all true W32 [0; 1; 0] (cursor_at 0 0) [1] = Some [0].
Proof. repeat split; reflexivity. Qed.

(** ** Sign extension *)

Lemma to_signed_small n x :
  0 < n -> - 2 ^ (n - 1) <= x < 2 ^ (n - 1) -> to_signed n x = x.
Proof.
  intros Hn Hx. unfold to_signed.
  assert (E : 2 ^ n = 2 * 2 ^ (n - 1)).
  { replace n with (Z.succ (n - 1)) at 1 by lia. apply Z.pow_succ_r. lia. }
  rewrite Z.mod_small; lia.
Qed.

Lemma neg_pow2_lnot k : 0 <= k -> - 2 ^ k = Z.lnot (Z.ones k).
Proof.
  intros Hk. rewrite Z.ones_equiv. unfold Z.lnot. lia.
Qed.

(** X3. Given the index of the sign bit, [sign_extend] extends a field
    of [bits] bits (at most 32, and no wider than [T]) to the
    two's-complement value it encodes: the field itself when its top bit
    is clear, the field minus [2^bits] when it is set. *)
Lemma sign_extend_ok tw raw bits :
  1 <= bits <= 32 -> bits <= TBITS tw -> 0 <= raw < 2 ^ bits ->
  sign_extend tw raw (bits - 1)
  = Some (if Z.testbit raw (bits - 1) then raw - 2 ^ bits else raw).
Proof.
  intros Hb Hw Hraw. pose proof (TBITS_range tw) as HW.
  pose proof (TBITS_PBITS tw) as HP.
  remember (bits - 1) as k eqn:Ek. assert (Hk : 0 <= k < 32) by lia.
  assert (E : 2 ^ bits = 2 * 2 ^ k).
  { replace bits with (Z.succ k) by lia. apply Z.pow_succ_r. lia. }
  pose proof (pow2_pos k (proj1 Hk)) as Hpk.
  assert (Hle : 2 ^ k <= 2 ^ (TBITS tw - 1)) by (apply pow2_le_mono; lia).
  assert (Hle' : 2 ^ (TBITS tw - 1) <= 2 ^ (PBITS tw - 1))
    by (apply pow2_le_mono; lia).
  unfold sign_extend.
  replace (0 <=? k) with true by (symmetry; apply Z.leb_le; lia).
  replace (k <? 32) with true by (symmetry; apply Z.ltb_lt; lia).
  replace (k <? PBITS tw) with true by (symmetry; apply Z.ltb_lt; lia).
  cbn [andb]. f_equal.
  assert (Hone : Z.testbit (to_int (Z.shiftl 1 k)) k = true /\
                 forall i, 0 <= i < k ->
                           Z.testbit (to_int (Z.shiftl 1 k)) i = false).
  { rewrite Z.shiftl_mul_pow2, Z.mul_1_l by lia.
    destruct (Z.eq_dec k 31) as [-> | Hne].
    - split; [reflexivity|]. intros i Hi.
      change (to_int (2 ^ 31)) with (- 2 ^ 31).
      rewrite (neg_pow2_lnot 31) by lia. rewrite Z.lnot_spec by lia.
      rewrite Z.ones_spec_low by lia. reflexivity.
    - assert (2 ^ k < 2 ^ 31) by (apply pow2_lt_mono; lia).
      rewrite to_int_small by lia. split.
      + apply Z.pow2_bits_true. lia.
      + intros i Hi. apply Z.pow2_bits_false. lia. }
  destruct Hone as [Hone1 Hone2].
  assert (Hsign : (Z.land raw (to_int (Z.shiftl 1 k)) =? 0)
                  = negb (Z.testbit raw k)).
  { destruct (Z.testbit raw k) eqn:Hbit; cbn [negb].
    - apply Z.eqb_neq. intros Hz.
      assert (Z.testbit (Z.land raw (to_int (Z.shiftl 1 k))) k = true)
        by (rewrite Z.land_spec, Hbit, Hone1; reflexivity).
      rewrite Hz, Z.testbit_0_l in H. discriminate.
    - apply Z.eqb_eq. apply Z.bits_inj'; intros i Hi.
      rewrite Z.land_spec, Z.testbit_0_l.
      destruct (Z.lt_trichotomy i k) as [Hlt | [-> | Hgt]].
      + rewrite Hone2 by lia. apply andb_false_r.
      + rewrite Hbit. reflexivity.
      + rewrite (testbit_above raw bits i) by lia. reflexivity. }
  rewrite Hsign. destruct (Z.testbit raw k) eqn:Hbit; cbn [negb].
  - rewrite Z.shiftl_mul_pow2 by lia.
    rewrite Z.mul_opp_l, Z.mul_1_l.
    rewrite (to_signed_small (PBITS tw)) by lia.
    rewrite (to_signed_small (TBITS tw) (- 2 ^ k)) by lia.
    assert (Hlor : Z.lor raw (- 2 ^ k) = raw - 2 ^ bits /\ 2 ^ k <= raw).
    { assert (Hr : raw = Z.lor (Z.land raw (Z.ones k)) (2 ^ k)).
      { apply Z.bits_inj'; intros i Hi.
        rewrite Z.lor_spec, Z.land_spec.
        destruct (Z.lt_trichotomy i k) as [Hlt | [-> | Hgt]].
        - rewrite Z.ones_spec_low, Z.pow2_bits_false by lia.
          rewrite andb_true_r, orb_false_r. reflexivity.
        - rewrite Z.pow2_bits_true by lia. rewrite Hbit.
          symmetry. apply orb_true_r.
        - rewrite Z.ones_spec_high, Z.pow2_bits_false by lia.
          rewrite (testbit_above raw bits i) by lia. reflexivity. }
      assert (Hsum : raw = Z.land raw (Z.ones k) + 2 ^ k).
      { rewrite Hr at 1. apply Z.or_to_plus.
        apply Z.bits_inj'; intros i Hi.
        rewrite !Z.land_spec, Z.testbit_0_l.
        destruct (Z.eq_dec i k) as [-> | Hne].
        - rewrite Z.ones_spec_high by lia. rewrite andb_false_r. reflexivity.
        - rewrite Z.pow2_bits_false by lia. apply andb_false_r. }
      assert (Hl : Z.lor raw (- 2 ^ k)
                   = Z.lor (Z.land raw (Z.ones k)) (- 2 ^ k)).
      { rewrite (neg_pow2_lnot k) by lia.
        apply Z.bits_inj'; intros i Hi.
        rewrite !Z.lor_spec, Z.land_spec, Z.lnot_spec by lia.
        destruct (Z.lt_ge_cases i k).
        - rewrite Z.ones_spec_low by lia. rewrite andb_true_r. reflexivity.
        - rewrite Z.ones_spec_high by lia. cbn [negb].
          rewrite !orb_true_r. reflexivity. }
      assert (Hnn : 0 <= Z.land raw (Z.ones k))
        by (apply Z.land_nonneg; lia).
      split; [|lia].
      rewrite Hl. rewrite Z.or_to_plus.
      - lia.
      - rewrite (neg_pow2_lnot k) by lia.
        apply Z.bits_inj'; intros i Hi.
        rewrite !Z.land_spec, Z.lnot_spec, Z.testbit_0_l by lia.
        destruct (Z.lt_ge_cases i k).
        + rewrite Z.ones_spec_low by lia. cbn [negb].
          apply andb_false_r.
        + rewrite Z.ones_spec_high by lia. rewrite andb_false_r.
          reflexivity. }
    destruct Hlor as [-> Hge]. apply to_signed_small; lia.
  - rewrite Z.shiftl_0_l.
    rewrite (to_signed_small (PBITS tw)) by lia.
    rewrite (to_signed_small (TBITS tw) 0) by lia.
    rewrite Z.lor_0_r.
    assert (raw < 2 ^ k).
    { destruct (Z.lt_ge_cases raw (2 ^ k)) as [|Hge]; [assumption|].
      exfalso.
      assert (Hb' : Z.testbit raw k = true).
      { rewrite Z.testbit_true by lia.
        assert (Hd : raw / 2 ^ k = 1)
          by (symmetry; apply Z.div_unique with (r := raw - 2 ^ k); lia).
        rewrite Hd. reflexivity. }
      congruence. }
    apply to_signed_small; lia.
Qed.

(** [fixup_extract] hands [bits], not [bits - 1], to [sign_extend]: on an
    extracted field, whose bit [bits] is clear, it changes nothing. *)
Example fixup_extract_5_bits :
  fixup_extract (Signed W32) 21 5 = Some 21 /\
  sign_extend W32 21 4 = Some (-11).
Proof. split; reflexivity. Qed.

(** C3. The extractor stores the extracted word into the destination
    without any fix-up: a 5-bit field holding [0b10101] read into an
    [int] gives 21, as it does into an [unsigned]; [-11] is what
    [sign_extend] gives when it is handed the index of the sign bit. *)
Theorem extract_signed_not_extended :
  (do e <- Bit_Extractor.make (B := Simple_Mem_Buffer.t) [21; 0] 0;
   do r <- Bit_Extractor.extract true W32 [21; 0] (Signed W32) e 5;
   Some (fst r)) = Some 21 /\
  (do e <- Bit_Extractor.make (B := Simple_Mem_Buffer.t) [21; 0] 0;
   do r <- Bit_Extractor.extract true W32 [21; 0] (Unsigned W32) e 5;
   Some (fst r)) = Some 21 /\
  (do e <- Bit_Extractor.make (B := Simple_Mem_Buffer.t) [21; 0] 0;
   do r <- Bit_Extractor.extract false W8 [21; 0] (Signed W8) e 5;
   Some (fst r)) = Some 21 /\
  sign_extend W32 21 (5 - 1) = Some (-11).
Proof. repeat split; reflexivity. Qed.

(** * Further properties of the code *)

(** ** The double-word shift, bit by bit *)

(** X1. In both builds and for every count in [[1, W)], bit [i] of
    [shrd(low, high, bits)] is bit [i + bits] of [low] while that lies in
    the word, and bit [i + bits - W] of [high] above it. *)
Theorem shrd_bits intel_isa w low high bits :
  0 <= low < 2 ^ TBITS w -> 0 <= high < 2 ^ TBITS w ->
  1 <= bits < TBITS w ->
  exists r,
    shrd intel_isa w low high bits = Some r /\
    0 <= r < 2 ^ TBITS w /\
    forall i, 0 <= i < TBITS w ->
      Z.testbit r i =
      if i + bits <? TBITS w then Z.testbit low (i + bits)
      else Z.testbit high (i + bits - TBITS w).
Proof.
  intros Hl Hh Hb. pose proof (TBITS_range w) as HW.
  exists (shift_window w low high bits).
  split; [apply shrd_ok; try assumption; intros; lia|].
  split; [apply shift_window_range|].
  intros i Hi. unfold shift_window.
  rewrite Z.testbit_mod_pow2 by lia.
  replace (i <? TBITS w) with true by (symmetry; apply Z.ltb_lt; lia).
  cbn [andb]. rewrite Z.div_pow2_bits by lia.
  apply testbit_window; [assumption | lia].
Qed.

Lemma shrd_bits_witness :
  exists r, shrd false W16 0xABCD 0x1234 13 = Some r /\
            Z.testbit r 3 = Z.testbit 0x1234 0.
Proof.
  destruct (shrd_bits false W16 0xABCD 0x1234 13) as (r & Hr & _ & Hbits).
  - cbn. lia.
  - cbn. lia.
  - cbn. lia.
  - exists r. split; [exact Hr|]. apply (Hbits 3). cbn. lia.
Defined.

(** X2. A count equal to the word size, which the comment on
    [shrd_emulated] leaves undefined: the emulation returns [high] on the
    word types promoted to [int] and is undefined on [uint32_t] and
    [uint64_t]; there the instruction takes the count modulo the word
    size and returns [low]. *)
Theorem shrd_full_count w low high :
  0 <= low < 2 ^ TBITS w -> 0 <= high < 2 ^ TBITS w ->
  (promotes_to_int w = true ->
   shrd_emulated w low high (TBITS w) = Some high /\
   shrd true w low high (TBITS w) = Some high) /\
  (promotes_to_int w = false ->
   shrd_emulated w low high (TBITS w) = None /\
   shrd true w low high (TBITS w) = Some low).
Proof.
  intros Hl Hh. pose proof (TBITS_range w) as HW.
  pose proof (TBITS_PBITS w) as HP. split; intros Hw.
  - destruct (PBITS_small w Hw) as [Hs HP32].
    assert (E : shrd_emulated w low high (TBITS w) = Some high).
    { unfold shrd_emulated. rewrite shr_ok by lia. ub_step.
      rewrite Z.sub_diag. change (to_shift_t 0) with 0.
      destruct (shl_ok w high 0) as (h & Hh1 & Hh2);
        [assumption | lia | lia |].
      rewrite Hh1. ub_step. rewrite Hh2, Z.shiftl_0_r.
      rewrite Z.shiftr_div_pow2, Z.div_small by lia.
      rewrite (Z.mod_small high) by assumption.
      unfold to_Data. rewrite Z.mod_0_l by lia. cbn [Z.lor].
      rewrite Z.mod_small by assumption. reflexivity. }
    split; [exact E|].
    unfold shrd, shrd_intel. destruct w; try discriminate; [exact E|].
    unfold shrd_insn. cbn [TBITS].
    change (16 <? 16) with false. change (16 mod 2 ^ 8 mod 32) with 16.
    cbn [Z.eqb Pos.eqb]. change (16 <? 16) with false.
    cbn [TBITS] in Hl, Hh. f_equal.
    rewrite <- (Z.land_ones _ 16) by lia.
    apply Z.bits_inj'; intros i Hi.
    rewrite Z.land_spec, Z.shiftr_spec, Z.lor_spec, Z.shiftl_spec by lia.
    rewrite (testbit_above low 16 (i + 16)) by lia.
    replace (i + 16 - 16) with i by lia. cbn [orb].
    destruct (Z.lt_ge_cases i 16).
    + rewrite Z.ones_spec_low by lia. apply andb_true_r.
    + rewrite Z.ones_spec_high by lia.
      rewrite (testbit_above high 16 i) by lia. reflexivity.
  - destruct (PBITS_large w Hw) as [HPW _]. split.
    + unfold shrd_emulated. rewrite shr_undefined by lia. reflexivity.
    + destruct w; try discriminate; reflexivity.
Qed.

Lemma shrd_full_count_witness :
  shrd_emulated W16 0xABCD 0x1234 16 = Some 0x1234 /\
  shrd true W32 0xABCD 0x1234 32 = Some 0xABCD.
Proof.
  destruct (shrd_full_count W16 0xABCD 0x1234) as [H16 _];
    [cbn; lia | cbn; lia |].
  destruct (shrd_full_count W32 0xABCD 0x1234) as [_ H32];
    [cbn; lia | cbn; lia |].
  split; [apply H16 | apply H32]; reflexivity.
Defined.

(** ** Sign extension and the fix-up *)

Lemma sign_extend_ok_witness :
  sign_extend W32 21 (5 - 1)
  = Some (if Z.testbit 21 (5 - 1) then 21 - 2 ^ 5 else 21).
Proof.
  apply (sign_extend_ok W32 21 5); cbn; lia.
Defined.

(** X4. [fixup_extract] never changes an extracted field: a value below
    [2^bits] has bit [bits] clear, and that is the bit the overloads for
    the signed types hand to [sign_extend]. *)
Theorem fixup_extract_no_effect T raw bits :
  0 <= bits < 32 ->
  (forall tw, T = Signed tw -> bits < TBITS tw) ->
  0 <= raw < 2 ^ bits ->
  fixup_extract T raw bits = Some raw.
Proof.
  intros Hb HT Hraw. destruct T as [tw | tw]; [reflexivity|].
  specialize (HT tw eq_refl). pose proof (TBITS_range tw) as HW.
  pose proof (TBITS_PBITS tw) as HP.
  unfold fixup_extract. rewrite to_int_small by (pow_consts; lia).
  unfold sign_extend.
  replace (0 <=? bits) with true by (symmetry; apply Z.leb_le; lia).
  replace (bits <? 32) with true by (symmetry; apply Z.ltb_lt; lia).
  replace (bits <? PBITS tw) with true by (symmetry; apply Z.ltb_lt; lia).
  cbn [andb].
  assert (Hz : Z.land raw (to_int (Z.shiftl 1 bits)) = 0).
  { rewrite Z.shiftl_mul_pow2, Z.mul_1_l by lia.
    apply Z.bits_inj'; intros i Hi.
    rewrite Z.land_spec, Z.testbit_0_l.
    destruct (Z.lt_ge_cases i bits).
    - replace (Z.testbit (to_int (2 ^ bits)) i) with false;
        [apply andb_false_r|].
      symmetry. destruct (Z.eq_dec bits 31) as [-> | Hne].
      + change (to_int (2 ^ 31)) with (- 2 ^ 31).
        rewrite (neg_pow2_lnot 31) by lia. rewrite Z.lnot_spec by lia.
        rewrite Z.ones_spec_low by lia. reflexivity.
      + assert (2 ^ bits < 2 ^ 31) by (apply pow2_lt_mono; lia).
        pose proof (pow2_pos bits).
        rewrite to_int_small by lia. apply Z.pow2_bits_false. lia.
    - rewrite (testbit_above raw bits i) by lia. reflexivity. }
  rewrite Hz. cbn [Z.eqb Z.opp]. rewrite Z.shiftl_0_l.
  assert (Hle : 2 ^ bits <= 2 ^ (TBITS tw - 1)) by (apply pow2_le_mono; lia).
  assert (Hle' : 2 ^ (TBITS tw - 1) <= 2 ^ (PBITS tw - 1))
    by (apply pow2_le_mono; lia).
  pose proof (pow2_pos (TBITS tw - 1)).
  rewrite (to_signed_small (PBITS tw) 0) by lia.
  rewrite (to_signed_small (TBITS tw) 0) by lia.
  rewrite Z.lor_0_r. f_equal. apply to_signed_small; lia.
Qed.

Lemma fixup_extract_no_effect_witness :
  fixup_extract (Signed W8) 21 5 = Some 21.
Proof.
  apply fixup_extract_no_effect.
  - lia.
  - intros tw E. injection E as <-. cbn. lia.
  - cbn. lia.
Defined.

(** ** Which paths need the padding word *)

(** X5. At the last word of an array (no word after it) and for a field
    that does not straddle: the pointer [extract_bit_range] reads only
    [p[0]] and returns the field; [Bit_Buffer::extract] evaluates
    [data.next()] for its call and so reads past the array, whatever the
    width; the constructor of [Buffered_Mem_Buffer] does too. *)
Theorem last_word_paths intel_isa w mem p word0 bit bits :
  load mem p = Some word0 -> load mem (p + 1) = None ->
  0 <= word0 < 2 ^ TBITS w ->
  0 <= bit < TBITS w -> 0 <= bits < TBITS w -> bit + bits <= TBITS w ->
  extract_bit_range_ptr intel_isa w mem p bit bits
  = Some (Z.land (Z.shiftr word0 bit) (Z.ones bits)) /\
  Bit_Buffer.extract intel_isa w mem (cursor_at p bit) bits = None /\
  Buffered_Mem_Buffer.make mem p = None.
Proof.
  intros L0 L1 H0 Hbit Hbits Hfit. pose proof (TBITS_range w) as HW.
  pose proof (TBITS_PBITS w) as HP. split; [|split].
  - unfold extract_bit_range_ptr. rewrite L0. ub_step.
    rewrite to_size_t_small by (pow_consts; lia).
    replace (TBITS w <? bit + bits) with false
      by (symmetry; apply Z.ltb_ge; lia).
    rewrite shr_ok by lia. do 2 ub_step.
    destruct (mask_result w (to_Data w (Z.shiftr word0 bit)) bits
                (to_Data_range _ _) Hbits) as [_ ->].
    rewrite to_Data_small; [reflexivity|].
    rewrite Z.shiftr_div_pow2 by lia. pose proof (pow2_pos bit).
    split; [apply Z.div_pos; lia|].
    apply Z.div_lt_upper_bound; [lia|]. nia.
  - unfold Bit_Buffer.extract, cursor_at.
    cbn [Bit_Buffer.data mb_curr mb_next Simple_MemBuf].
    unfold Simple_Mem_Buffer.curr, Simple_Mem_Buffer.next.
    cbn [Simple_Mem_Buffer.make Simple_Mem_Buffer.data].
    rewrite L0, L1. reflexivity.
  - unfold Buffered_Mem_Buffer.make. rewrite L0, L1. reflexivity.
Qed.

Lemma last_word_paths_witness :
  extract_bit_range_ptr false W32 [0xF0] 0 4 4 = Some 0xF /\
  Bit_Buffer.extract false W32 [0xF0] (cursor_at 0 4) 4 = None.
Proof.
  destruct (last_word_paths false W32 [0xF0] 0 0xF0 4 4)
    as (H1 & H2 & _); try reflexivity; try (cbn; lia).
  split; assumption.
Defined.

(** X6. [set_bit_range] touches [p[1]] only when the field straddles: a
    field inside one word is written without a padding word, only the
    word at [p] changes, and in it only the bits of the field, which
    receive the low [bits] bits of [val]. *)
Theorem set_bit_range_single_word w mem p word0 val bit bits :
  load mem p = Some word0 -> 0 <= word0 < 2 ^ TBITS w ->
  0 <= val < 2 ^ TBITS w ->
  0 <= bit < TBITS w -> 0 < bits < TBITS w -> bit + bits <= TBITS w ->
  exists r0,
    set_bit_range w mem p val bit bits = Some (<[Z.to_nat p := r0]> mem) /\
    0 <= r0 < 2 ^ TBITS w /\
    forall i, 0 <= i ->
      Z.testbit r0 i =
      if (bit <=? i) && (i <? bit + bits)
      then Z.testbit val (i - bit) else Z.testbit word0 i.
Proof.
  intros L0 H0 Hval Hbit Hbits Hfit. pose proof (TBITS_range w) as HW.
  pose proof (load_Some _ _ _ L0) as Hp.
  unfold set_bit_range.
  replace (bits =? 0) with false by (symmetry; apply Z.eqb_neq; lia).
  rewrite (to_int_small bits) by (pow_consts; lia).
  rewrite (to_shift_t_small (TBITS w - bit)) by (pow_consts; lia).
  rewrite (to_int_small (TBITS w - bit)) by (pow_consts; lia).
  rewrite Z.min_l by lia. rewrite Z.sub_diag.
  change (to_int (to_shift_t 0)) with 0. cbn [Z.eqb].
  rewrite (to_shift_t_small bits) by (pow_consts; lia).
  rewrite L0. ub_step.
  destruct (set_bits_ok w word0 val bit bits) as (r0 & S0 & R0 & B0);
    try assumption; try lia.
  rewrite S0. ub_step. rewrite store_ok by assumption. ub_step.
  exists r0. split; [reflexivity|]. split; assumption.
Qed.

Lemma set_bit_range_single_word_witness :
  exists r0, set_bit_range W8 [0xFF] 0 0 2 3 = Some (<[0%nat := r0]> [0xFF]).
Proof.
  destruct (set_bit_range_single_word W8 [0xFF] 0 0xFF 0 2 3)
    as (r0 & H & _); try reflexivity; try (cbn; lia).
  exists r0. exact H.
Defined.

(** X7. Writing a whole word ([bit = 0], [bits = W]): on [uint8_t] and
    [uint16_t] the word at [p] becomes [val] and nothing else is read or
    written; on [uint32_t] and [uint64_t] the mask of [set_bits] shifts
    by the width of the type and the write is undefined. *)
Theorem set_bit_range_full_word w mem p word0 val :
  load mem p = Some word0 -> 0 <= word0 < 2 ^ TBITS w ->
  0 <= val < 2 ^ TBITS w ->
  set_bit_range w mem p val 0 (TBITS w)
  = if promotes_to_int w then Some (<[Z.to_nat p := val]> mem) else None.
Proof.
  intros L0 H0 Hval. pose proof (TBITS_range w) as HW.
  pose proof (TBITS_PBITS w) as HP.
  pose proof (load_Some _ _ _ L0) as Hp.
  unfold set_bit_range.
  replace (TBITS w =? 0) with false by (symmetry; apply Z.eqb_neq; lia).
  rewrite Z.sub_0_r.
  rewrite (to_shift_t_small (TBITS w)) by (pow_consts; lia).
  rewrite (to_int_small (TBITS w)) by (pow_consts; lia).
  rewrite Z.min_id, Z.sub_diag.
  change (to_int (to_shift_t 0)) with 0. cbn [Z.eqb].
  rewrite (to_shift_t_small (TBITS w)) by (pow_consts; lia).
  rewrite L0. ub_step. unfold set_bits.
  destruct (promotes_to_int w) eqn:Hw.
  - rewrite low_mask_promoted_full by assumption. ub_step.
    assert (Hones : 0 <= Z.ones (TBITS w) < 2 ^ TBITS w)
      by (rewrite Z.ones_equiv; lia).
    rewrite (to_Data_small w _ Hones).
    destruct (shl_ok w (Z.ones (TBITS w)) 0) as (m' & Hm1 & Hm2);
      [assumption | lia | lia |].
    destruct (shl_ok w val 0) as (v' & Hv1 & Hv2);
      [assumption | lia | lia |].
    rewrite Hm1. ub_step. rewrite Hv1. ub_step.
    rewrite Hm2, Hv2, !Z.shiftl_0_r.
    rewrite (Z.mod_small _ _ Hones), (Z.mod_small _ _ Hval).
    unfold cnot. rewrite Hw.
    assert (E : to_Data w (Z.lor (Z.land word0 (Z.lnot (Z.ones (TBITS w))))
                             (Z.land val (Z.ones (TBITS w)))) = val).
    { rewrite Z.land_ones, (Z.mod_small _ _ Hval) by lia.
      assert (Ez : Z.land word0 (Z.lnot (Z.ones (TBITS w))) = 0).
      { apply Z.bits_inj'; intros i Hi.
        rewrite Z.land_spec, Z.lnot_spec, Z.testbit_0_l by lia.
        destruct (Z.lt_ge_cases i (TBITS w)).
        - rewrite Z.ones_spec_low by lia. apply andb_false_r.
        - rewrite (testbit_word_high w word0 i) by (assumption || lia).
          reflexivity. }
      rewrite Ez. cbn [Z.lor]. apply to_Data_small. assumption. }
    rewrite E. ub_step. rewrite store_ok by assumption. reflexivity.
  - rewrite low_mask_full_undefined by assumption. reflexivity.
Qed.

Lemma set_bit_range_full_word_witness :
  set_bit_range W16 [0xBEEF; 7] 1 0x1234 0 16 = Some [0xBEEF; 0x1234] /\
  set_bit_range W32 [0xBEEF; 7] 1 0x1234 0 32 = None.
Proof.
  split.
  - apply (set_bit_range_full_word W16 [0xBEEF; 7] 1 7);
      try reflexivity; cbn; lia.
  - apply (set_bit_range_full_word W32 [0xBEEF; 7] 1 7);
      try reflexivity; cbn; lia.
Defined.

(** ** Moving the cursor backwards *)

(** The conversions of [advance] on a negative offset: [size_t] wraps it
    to [2^64 + ofs], and since the word size divides [2^64] and
    [2^64 / W] is a multiple of [2^32], the [int] quotient and remainder
    are the floor quotient and remainder of [ofs]. *)
Lemma normalise_signed w ofs :
  INT_MIN <= ofs <= INT_MAX ->
  to_int (to_size_t ofs / TBITS w) = ofs / TBITS w /\
  to_int (to_size_t ofs mod TBITS w) = ofs mod TBITS w.
Proof.
  intros Ho. unfold INT_MIN, INT_MAX in Ho.
  destruct (Z_lt_le_dec ofs 0) as [Hneg | Hpos].
  - assert (E : to_size_t ofs = ofs + 2 ^ 64).
    { unfold to_size_t.
      rewrite <- (Z.mod_add ofs 1 (2 ^ 64)) by lia.
      rewrite Z.mul_1_l. apply Z.mod_small. pow_consts. lia. }
    rewrite E. unfold to_int.
    destruct w; unfold TBITS; pow_consts; Z.div_mod_to_equations; lia.
  - apply normalise_ok. unfold INT_MAX. lia.
Qed.

Lemma Bit_Buffer_advance_any w mem q o bits :
  INT_MIN <= o + bits <= INT_MAX ->
  Bit_Buffer.advance w mem (cursor_at q o) bits
  = Some (cursor_at (q + (o + bits) / TBITS w) ((o + bits) mod TBITS w)).
Proof.
  intros Hfit. unfold Bit_Buffer.advance, cursor_at.
  cbn [Bit_Buffer.bit_ofs Bit_Buffer.data].
  rewrite int_add_ok by assumption. ub_step.
  destruct (normalise_signed w (o + bits)) as [-> ->]; [assumption|].
  reflexivity.
Qed.

(** X8. [advance] also takes a negative count: as long as
    [bit_ofs + bits] stays an [int], the cursor moves to the floor
    quotient and remainder, so a normalised cursor stays normalised; and
    [advance(bits)] followed by [advance(-bits)], when that does not
    overflow either, is back where it started. *)
Theorem Bit_Buffer_advance_back w mem q o bits :
  0 <= o < TBITS w -> INT_MIN <= o + bits <= INT_MAX ->
  INT_MIN <= (o + bits) mod TBITS w - bits <= INT_MAX ->
  exists b,
    Bit_Buffer.advance w mem (cursor_at q o) bits = Some b /\
    word_index b = q + (o + bits) / TBITS w /\
    Bit_Buffer.bit_ofs b = (o + bits) mod TBITS w /\
    0 <= Bit_Buffer.bit_ofs b < TBITS w /\
    Bit_Buffer.advance w mem b (- bits) = Some (cursor_at q o).
Proof.
  intros Ho Hfit Hback. pose proof (TBITS_range w) as HW.
  pose proof (Z.mod_pos_bound (o + bits) (TBITS w)) as Hm.
  exists (cursor_at (q + (o + bits) / TBITS w) ((o + bits) mod TBITS w)).
  split; [apply Bit_Buffer_advance_any; assumption|].
  split; [reflexivity|]. split; [reflexivity|]. split; [cbn; lia|].
  rewrite Bit_Buffer_advance_any by lia.
  assert (E : (o + bits) mod TBITS w + - bits
              = o + - ((o + bits) / TBITS w) * TBITS w).
  { pose proof (Z.div_mod (o + bits) (TBITS w)). lia. }
  rewrite E, Z.div_add, Z.mod_add by lia.
  rewrite (Z.div_small o), (Z.mod_small o) by lia.
  f_equal. f_equal; lia.
Qed.

Lemma Bit_Buffer_advance_back_witness :
  Bit_Buffer.advance W8 [] (cursor_at 5 0) (-1) = Some (cursor_at 4 7).
Proof.
  destruct (Bit_Buffer_advance_back W8 [] 5 0 (-1))
    as (b & Hadv & Hi & Ho & _).
  - cbn. lia.
  - split; apply Z.leb_le; reflexivity.
  - split; apply Z.leb_le; reflexivity.
  - rewrite Hadv. destruct b as [[d] o]. cbn in Hi, Ho. subst. reflexivity.
Defined.

(** ** The cached strategy *)

(** X9. Advances of the cached strategy add up: from a reachable state,
    [+= a] followed by [+= c] ends in the state that [+= (a + c)]
    reaches directly, for offsets of either sign. *)
Theorem Buffered_plus_assign_compose mem b a c b1 b2 :
  Buffered_Mem_Buffer.reachable mem b ->
  Buffered_Mem_Buffer.plus_assign mem b a = Some b1 ->
  Buffered_Mem_Buffer.plus_assign mem b1 c = Some b2 ->
  Buffered_Mem_Buffer.plus_assign mem b (a + c) = Some b2.
Proof.
  intros Hr Ha Hc.
  destruct (Buffered_reachable_cache mem b Hr) as [C0 C1].
  assert (Hr1 : Buffered_Mem_Buffer.reachable mem b1)
    by (eapply Buffered_Mem_Buffer.reach_plus_assign; eassumption).
  assert (Hr2 : Buffered_Mem_Buffer.reachable mem b2)
    by (eapply Buffered_Mem_Buffer.reach_plus_assign; eassumption).
  destruct (Buffered_reachable_cache mem b2 Hr2) as [D0 D1].
  assert (E1 : Buffered_Mem_Buffer.data b1 = Buffered_Mem_Buffer.data b + a).
  { unfold Buffered_Mem_Buffer.plus_assign in Ha.
    destruct (if a =? 0 then _ else _); [|discriminate]. cbn in Ha.
    destruct (if a =? 0 then _ else _); [|discriminate]. cbn in Ha.
    injection Ha as <-. reflexivity. }
  assert (E2 : Buffered_Mem_Buffer.data b2 = Buffered_Mem_Buffer.data b1 + c).
  { unfold Buffered_Mem_Buffer.plus_assign in Hc.
    destruct (if c =? 0 then _ else _); [|discriminate]. cbn in Hc.
    destruct (if c =? 0 then _ else _); [|discriminate]. cbn in Hc.
    injection Hc as <-. reflexivity. }
  assert (Ed : Buffered_Mem_Buffer.data b2
               = Buffered_Mem_Buffer.data b + (a + c)) by lia.
  rewrite Ed in D0, D1.
  rewrite (Buffered_plus_assign_ok mem b (a + c) _ _ C0 C1 D0 D1).
  destruct b2 as [d x0 x1]. cbn in *. rewrite <- Ed. reflexivity.
Qed.

Lemma Buffered_plus_assign_compose_witness :
  Buffered_Mem_Buffer.plus_assign [10; 11; 12; 13; 14]
    (Buffered_Mem_Buffer.Build 1 11 12) (2 + -1)
  = Some (Buffered_Mem_Buffer.Build 2 12 13).
Proof.
  apply (Buffered_plus_assign_compose [10; 11; 12; 13; 14]
           (Buffered_Mem_Buffer.Build 1 11 12) 2 (-1)
           (Buffered_Mem_Buffer.Build 3 13 14)
           (Buffered_Mem_Buffer.Build 2 12 13)).
  - apply (Buffered_Mem_Buffer.reach_make _ 1). reflexivity.
  - reflexivity.
  - reflexivity.
Defined.

(** ** The array as a stream of bits *)

Lemma stream_bit_word w mem q j x :
  load mem q = Some x -> 0 <= j < TBITS w ->
  stream_bit w mem (q * TBITS w + j) = Z.testbit x j.
Proof.
  intros L Hj. unfold stream_bit.
  rewrite Z.div_add_l, Z.div_small by lia.
  rewrite Z.add_0_r, L.
  rewrite Z.add_comm, Z.mod_add, Z.mod_small by lia. reflexivity.
Qed.

Lemma stream_bit_window w mem q j c n :
  load mem q = Some c -> load mem (q + 1) = Some n ->
  0 <= c < 2 ^ TBITS w -> 0 <= j < 2 * TBITS w ->
  stream_bit w mem (q * TBITS w + j) = Z.testbit (window w c n) j.
Proof.
  intros Lc Ln Hc Hj. rewrite testbit_window by (assumption || lia).
  destruct (Z.ltb_spec j (TBITS w)).
  - apply stream_bit_word; [assumption | lia].
  - replace (q * TBITS w + j) with ((q + 1) * TBITS w + (j - TBITS w))
      by lia.
    apply stream_bit_word; [assumption | lia].
Qed.


Lemma extract_ptr_stream intel_isa w mem q bit bits :
  words_ok w mem -> 0 <= q -> q + 1 < Z.of_nat (length mem) ->
  0 <= bit < TBITS w -> 0 <= bits < TBITS w ->
  exists x,
    extract_bit_range_ptr intel_isa w mem q bit bits = Some x /\
    0 <= x < 2 ^ bits /\
    forall i, 0 <= i < bits ->
      Z.testbit x i = stream_bit w mem (q * TBITS w + bit + i).
Proof.
  intros Hok Hq Hlen Hbit Hbits.
  destruct (load_in_range mem q) as [c Lc]; [lia|].
  destruct (load_in_range mem (q + 1)) as [n Ln]; [lia|].
  pose proof (load_words_ok w mem q c Hok Lc) as Hc.
  pose proof (load_words_ok w mem (q + 1) n Hok Ln) as Hn.
  exists (field w c n bit bits).
  split; [apply extract_bit_range_ptr_ok; assumption|].
  split; [apply field_range; lia|].
  intros i Hi. rewrite <- Z.add_assoc.
  rewrite (stream_bit_window w mem q (bit + i) c n) by (assumption || lia).
  unfold field. rewrite Z.testbit_mod_pow2 by lia.
  replace (i <? bits) with true by (symmetry; apply Z.ltb_lt; lia).
  cbn [andb]. rewrite Z.div_pow2_bits by lia. f_equal. lia.
Qed.

(** X10. Bit order: the pointer [extract_bit_range] at word [q], offset
    [bit], returns the number whose bit [i] is bit
    [q * W + bit + i] of the array read as one stream, least significant
    bit of each word first; the field may run into the next word. *)
Theorem extract_bit_range_reads_stream intel_isa w mem q bit bits :
  words_ok w mem -> 0 <= q -> q + 1 < Z.of_nat (length mem) ->
  0 <= bit < TBITS w -> 0 <= bits < TBITS w ->
  exists x,
    extract_bit_range_ptr intel_isa w mem q bit bits = Some x /\
    0 <= x < 2 ^ bits /\
    forall i, 0 <= i < bits ->
      Z.testbit x i = stream_bit w mem (q * TBITS w + bit + i).
Proof. apply extract_ptr_stream. Qed.

Lemma extract_bit_range_reads_stream_witness :
  exists x,
    extract_bit_range_ptr false W16 [0xABCD; 0x1234; 0] 0 13 6 = Some x /\
    Z.testbit x 3 = stream_bit W16 [0xABCD; 0x1234; 0] 16.
Proof.
  destruct (extract_bit_range_reads_stream false W16 [0xABCD; 0x1234; 0]
              0 13 6) as (x & Hx & _ & Hb).
  - unfold words_ok. repeat constructor; cbn; lia.
  - lia.
  - cbn. lia.
  - cbn. lia.
  - cbn. lia.
  - exists x. split; [exact Hx|]. apply (Hb 3). lia.
Defined.

Lemma words_ok_insert w mem i x :
  words_ok w mem -> 0 <= x < 2 ^ TBITS w -> words_ok w (<[i := x]> mem).
Proof. intros Hok Hx. apply Forall_insert; assumption. Qed.

Lemma set_bit_range_stream w mem q val bit bits :
  words_ok w mem -> 0 <= q -> q + 1 < Z.of_nat (length mem) ->
  0 <= bit < TBITS w -> 0 <= bits < TBITS w -> 0 <= val < 2 ^ TBITS w ->
  exists mem',
    set_bit_range w mem q val bit bits = Some mem' /\
    length mem' = length mem /\ words_ok w mem' /\
    forall g,
      stream_bit w mem' g =
      if (q * TBITS w + bit <=? g) && (g <? q * TBITS w + bit + bits)
      then Z.testbit val (g - (q * TBITS w + bit))
      else stream_bit w mem g.
Proof.
  intros Hok Hq Hlen Hbit Hbits Hval. pose proof (TBITS_range w) as HW.
  destruct (load_in_range mem q) as [c Lc]; [lia|].
  destruct (load_in_range mem (q + 1)) as [n Ln]; [lia|].
  pose proof (load_words_ok w mem q c Hok Lc) as Hc.
  pose proof (load_words_ok w mem (q + 1) n Hok Ln) as Hn.
  destruct (set_bit_range_window w mem q c n val bit bits)
    as (r0 & r1 & Hset & R0 & R1 & Hw); try assumption.
  set (mem' := <[Z.to_nat (q + 1) := r1]> (<[Z.to_nat q := r0]> mem)) in *.
  assert (L0' : load mem' q = Some r0).
  { unfold mem'. rewrite load_insert_other by lia.
    apply load_insert_same. lia. }
  assert (L1' : load mem' (q + 1) = Some r1).
  { unfold mem'. apply load_insert_same. rewrite length_insert. lia. }
  exists mem'. split; [exact Hset|]. split; [|split].
  - unfold mem'. rewrite !length_insert. reflexivity.
  - unfold mem'. apply words_ok_insert; [apply words_ok_insert|];
      assumption.
  - intros g.
    pose proof (Z.div_mod g (TBITS w)) as Hg.
    pose proof (Z.mod_pos_bound g (TBITS w)) as Hm.
    set (k := g / TBITS w) in *. set (j := g mod TBITS w) in *.
    assert (Eg : g = k * TBITS w + j) by lia.
    destruct (Z.eq_dec k q) as [Ek | Nk];
      [| destruct (Z.eq_dec k (q + 1)) as [Ek1 | Nk1]].
    + rewrite Eg, Ek.
      rewrite (stream_bit_window w mem' q j r0 r1) by (assumption || lia).
      rewrite (stream_bit_window w mem q j c n) by (assumption || lia).
      rewrite Hw by lia.
      replace (q * TBITS w + j - (q * TBITS w + bit)) with (j - bit) by lia.
      cmp_cases; bool_simpl; try lia; reflexivity.
    + rewrite Eg, Ek1.
      replace ((q + 1) * TBITS w + j) with (q * TBITS w + (TBITS w + j))
        by lia.
      rewrite (stream_bit_window w mem' q _ r0 r1) by (assumption || lia).
      rewrite (stream_bit_window w mem q _ c n) by (assumption || lia).
      rewrite Hw by lia.
      replace (q * TBITS w + (TBITS w + j) - (q * TBITS w + bit))
        with (TBITS w + j - bit) by lia.
      cmp_cases; bool_simpl; try lia; reflexivity.
    + assert (Hout : g < q * TBITS w \/ (q + 2) * TBITS w <= g).
      { destruct (Z_lt_le_dec k q); [left | right]; nia. }
      replace ((q * TBITS w + bit <=? g) && (g <? q * TBITS w + bit + bits))
        with false
        by (symmetry; apply andb_false_iff;
            rewrite Z.leb_gt, Z.ltb_ge; lia).
      unfold stream_bit. fold k. unfold mem'.
      rewrite !load_insert_other by lia. reflexivity.
Qed.

(** X11. [set_bit_range] in terms of the bit stream: the bits
    [[q * W + bit, q * W + bit + bits)] of the array become the low
    [bits] bits of [val] (bits of [val] above the field width are
    dropped, not written), every other bit of the array stays, and the
    array keeps its length and holds words. *)
Theorem set_bit_range_writes_stream w mem q val bit bits :
  words_ok w mem -> 0 <= q -> q + 1 < Z.of_nat (length mem) ->
  0 <= bit < TBITS w -> 0 <= bits < TBITS w -> 0 <= val < 2 ^ TBITS w ->
  exists mem',
    set_bit_range w mem q val bit bits = Some mem' /\
    length mem' = length mem /\ words_ok w mem' /\
    forall g,
      stream_bit w mem' g =
      if (q * TBITS w + bit <=? g) && (g <? q * TBITS w + bit + bits)
      then Z.testbit val (g - (q * TBITS w + bit))
      else stream_bit w mem g.
Proof. apply set_bit_range_stream. Qed.

Lemma set_bit_range_writes_stream_witness :
  exists mem',
    set_bit_range W8 [0; 0; 0] 0 0xFF 6 4 = Some mem' /\
    stream_bit W8 mem' 9 = true /\ stream_bit W8 mem' 10 = false.
Proof.
  destruct (set_bit_range_writes_stream W8 [0; 0; 0] 0 0xFF 6 4)
    as (mem' & Hset & _ & _ & Hs).
  - unfold words_ok. repeat constructor; cbn; lia.
  - lia.
  - cbn. lia.
  - cbn. lia.
  - cbn. lia.
  - cbn. lia.
  - exists mem'. split; [exact Hset|].
    split; [rewrite (Hs 9) | rewrite (Hs 10)]; reflexivity.
Defined.

(** ** Writing a sequence of fields and reading it back *)





(** ** Fused extraction *)



(** ** Composing writes inside one word *)

(** X14. Inside one word, [set_bits] on a field overwrites what an
    earlier [set_bits] put there, and two [set_bits] on fields that do
    not overlap give the same word in either order. *)
Theorem set_bits_compose w inp v1 v2 bit1 bits1 bit2 bits2 :
  0 <= inp < 2 ^ TBITS w ->
  0 <= v1 < 2 ^ TBITS w -> 0 <= v2 < 2 ^ TBITS w ->
  0 <= bit1 -> 0 <= bits1 < TBITS w -> bit1 + bits1 <= bit2 ->
  0 <= bits2 < TBITS w -> bit2 + bits2 <= TBITS w -> bit2 < TBITS w ->
  exists r1 r2 r12,
    set_bits w inp v1 bit1 bits1 = Some r1 /\
    set_bits w inp v2 bit2 bits2 = Some r2 /\
    set_bits w r1 v2 bit2 bits2 = Some r12 /\
    set_bits w r2 v1 bit1 bits1 = Some r12 /\
    set_bits w r1 v2 bit1 bits1 = set_bits w inp v2 bit1 bits1.
Proof.
  intros Hin Hv1 Hv2 Hb1 Hn1 Hdis Hn2 Hfit Hb2.
  destruct (set_bits_ok w inp v1 bit1 bits1) as (r1 & S1 & R1 & B1);
    try assumption; try lia.
  destruct (set_bits_ok w inp v2 bit2 bits2) as (r2 & S2 & R2 & B2);
    try assumption; try lia.
  destruct (set_bits_ok w r1 v2 bit2 bits2) as (r12 & S12 & R12 & B12);
    try assumption; try lia.
  destruct (set_bits_ok w r2 v1 bit1 bits1) as (r21 & S21 & R21 & B21);
    try assumption; try lia.
  destruct (set_bits_ok w r1 v2 bit1 bits1) as (ra & Sa & Ra & Ba);
    try assumption; try lia.
  destruct (set_bits_ok w inp v2 bit1 bits1) as (rb & Sb & Rb & Bb);
    try assumption; try lia.
  assert (E : r21 = r12).
  { apply Z.bits_inj'; intros i Hi.
    rewrite B21, B12, B1, B2 by assumption.
    cmp_cases; bool_simpl; try lia; reflexivity. }
  assert (E' : ra = rb).
  { apply Z.bits_inj'; intros i Hi.
    rewrite Ba, Bb, B1 by assumption.
    cmp_cases; bool_simpl; try lia; reflexivity. }
  exists r1, r2, r12. subst r21 ra.
  repeat split; try assumption. congruence.
Qed.

Lemma set_bits_compose_witness :
  exists r1 r2 r12,
    set_bits W8 0xFF 0 0 3 = Some r1 /\
    set_bits W8 0xFF 1 4 2 = Some r2 /\
    set_bits W8 r1 1 4 2 = Some r12 /\
    set_bits W8 r2 0 0 3 = Some r12.
Proof.
  destruct (set_bits_compose W8 0xFF 0 1 0 3 4 2)
    as (r1 & r2 & r12 & H1 & H2 & H3 & H4 & _); try (cbn; lia).
  exists r1, r2, r12. repeat split; assumption.
Defined.

(** ** The cursor over the cached strategy *)

Lemma extract_all_buffered intel_isa w mem p widths :
  0 <= p -> Forall (fun bits => 0 <= bits < TBITS w) widths ->
  forall t c n,
    0 <= t ->
    p + (t + sumZ widths) / TBITS w + 1 < Z.of_nat (length mem) ->
    load mem (p + t / TBITS w) = Some c ->
    load mem (p + t / TBITS w + 1) = Some n ->
    Bit_Buffer.extract_all intel_isa w mem
      (Bit_Buffer.Build (Buffered_Mem_Buffer.Build (p + t / TBITS w) c n)
         (t mod TBITS w)) widths
    = Bit_Buffer.extract_all intel_isa w mem
        (cursor_at (p + t / TBITS w) (t mod TBITS w)) widths.
Proof.
  intros Hp Hws. pose proof (TBITS_range w) as HW.
  induction Hws as [| bits rest Hb Hrest IH]; intros t c n Ht Hlen Lc Ln.
  - reflexivity.
  - rewrite sumZ_cons in Hlen.
    assert (Hs : 0 <= sumZ rest).
    { apply sumZ_nonneg. eapply Forall_impl; [exact Hrest|].
      cbn. intros; lia. }
    pose proof (Z.mod_pos_bound t (TBITS w)) as Hm.
    destruct (div_mod_carry (TBITS w) t bits) as [E1 E2]; [lia|].
    assert (Hq : 0 <= (t + bits) / TBITS w
                 <= (t + (bits + sumZ rest)) / TBITS w).
    { split; [apply Z.div_pos; lia | apply Z.div_le_mono; lia]. }
    destruct (load_in_range mem (p + (t + bits) / TBITS w))
      as [c' Lc']; [lia|].
    destruct (load_in_range mem (p + (t + bits) / TBITS w + 1))
      as [n' Ln']; [lia|].
    cbn [Bit_Buffer.extract_all]. unfold Bit_Buffer.extract.
    cbn [cursor_at Bit_Buffer.data Bit_Buffer.bit_ofs
         mb_curr mb_next Simple_MemBuf Buffered_MemBuf].
    unfold Simple_Mem_Buffer.curr, Simple_Mem_Buffer.next,
      Buffered_Mem_Buffer.curr, Buffered_Mem_Buffer.next.
    cbn [Simple_Mem_Buffer.make Simple_Mem_Buffer.data
         Buffered_Mem_Buffer.b0 Buffered_Mem_Buffer.b1].
    rewrite Lc, Ln. do 4 ub_step.
    destruct (extract_bit_range intel_isa w c n
                (to_size_t (t mod TBITS w)) (to_shift_t bits))
      as [r|]; [do 2 ub_step | reflexivity].
    change (Bit_Buffer.Build (Simple_Mem_Buffer.make (p + t / TBITS w))
              (t mod TBITS w))
      with (cursor_at (p + t / TBITS w) (t mod TBITS w)).
    rewrite Bit_Buffer_advance_ok by (unfold INT_MAX; pow_consts; lia).
    unfold Bit_Buffer.advance.
    cbn [Bit_Buffer.data Bit_Buffer.bit_ofs mb_plus_assign Buffered_MemBuf].
    rewrite int_add_ok by (unfold INT_MIN, INT_MAX; pow_consts; lia).
    ub_step.
    destruct (normalise_ok w (t mod TBITS w + bits)) as [-> ->];
      [unfold INT_MAX; pow_consts; lia|].
    assert (Eq : p + t / TBITS w + (t mod TBITS w + bits) / TBITS w
                 = p + (t + bits) / TBITS w) by lia.
    rewrite (Buffered_plus_assign_ok mem _ _ c' n');
      cbn [Buffered_Mem_Buffer.data Buffered_Mem_Buffer.b0
           Buffered_Mem_Buffer.b1];
      rewrite ?Eq; try assumption.
    do 3 ub_step. cbn [fst snd].
    rewrite E2.
    rewrite (IH (t + bits) c' n'); try assumption; try lia.
    + reflexivity.
    + replace (t + bits + sumZ rest) with (t + (bits + sumZ rest)) by lia.
      exact Hlen.
Qed.

(** X15. The bit cursor returns the same values over either buffer
    strategy: for field widths in [[0, W)] and an array with a word
    after the last one reached, [Bit_Buffer] over
    [Buffered_Mem_Buffer] can be constructed and its sequence of
    [extract] calls gives what the sequence over [Simple_Mem_Buffer]
    gives. *)
Theorem Bit_Buffer_strategies_agree intel_isa w mem p widths :
  0 <= p -> Forall (fun bits => 0 <= bits < TBITS w) widths ->
  p + sumZ widths / TBITS w + 1 < Z.of_nat (length mem) ->
  exists bb : Bit_Buffer.t (B := Buffered_Mem_Buffer.t),
    Bit_Buffer.make mem p = Some bb /\
    Bit_Buffer.extract_all intel_isa w mem bb widths
    = Bit_Buffer.extract_all intel_isa w mem (cursor_at p 0) widths.
Proof.
  intros Hp Hws Hlen. pose proof (TBITS_range w) as HW.
  assert (Hs : 0 <= sumZ widths).
  { apply sumZ_nonneg. eapply Forall_impl; [exact Hws|].
    cbn. intros; lia. }
  assert (0 <= sumZ widths / TBITS w) by (apply Z.div_pos; lia).
  destruct (load_in_range mem p) as [c Lc]; [lia|].
  destruct (load_in_range mem (p + 1)) as [n Ln]; [lia|].
  exists (Bit_Buffer.Build (Buffered_Mem_Buffer.Build p c n) 0). split.
  - unfold Bit_Buffer.make. cbn [mb_make Buffered_MemBuf].
    unfold Buffered_Mem_Buffer.make. rewrite Lc, Ln. reflexivity.
  - pose proof (extract_all_buffered intel_isa w mem p widths Hp Hws 0 c n)
      as E.
    rewrite Z.div_0_l, Z.mod_0_l, Z.add_0_r in E by lia.
    apply E; try assumption; try lia.
Qed.

Lemma Bit_Buffer_strategies_agree_witness :
  exists bb : Bit_Buffer.t (B := Buffered_Mem_Buffer.t),
    Bit_Buffer.make [0xABCD; 0x1234; 0] 0 = Some bb /\
    Bit_Buffer.extract_all false W16 [0xABCD; 0x1234; 0] bb [13; 6; 0; 9]
    = Bit_Buffer.extract_all false W16 [0xABCD; 0x1234; 0] (cursor_at 0 0)
        [13; 6; 0; 9].
Proof.
  apply Bit_Buffer_strategies_agree.
  - lia.
  - repeat constructor; cbn; lia.
  - apply Z.ltb_lt. reflexivity.
Defined.

(** ** Skipping, then extracting *)


